(** * Traffic routing: the physics and routing engine of [script.js]

    A shallow embedding of the class [TrafficVisualizer] (road registry,
    vehicle collection, entry admission, car following, junction
    transition) and of the routing callback of the Braess module,
    followed by the properties of the engine.

    JavaScript numbers are kept behind the interface [Number].  The engine
    is written once over that interface and is run on two carriers:
    exact rationals [Q], on which the general theorems are proved, and
    IEEE 754 binary64 ([PrimFloat]), the arithmetic of the JavaScript
    run time, on which concrete traces are evaluated. *)

From Stdlib Require Import QArith Lqa Floats.PrimFloat Numbers.Cyclic.Int63.Uint63.
From Stdlib Require Import Sorting.Permutation Sorting.Sorted Qabs Qminmax.
From stdpp Require Import base list strings.

Local Open Scope list_scope.

(** ** Numbers *)

Class Number (N : Type) := {
  nlit : Q -> N;            (* a numeric literal of the source *)
  nadd : N -> N -> N;       (* a + b *)
  nsub : N -> N -> N;       (* a - b *)
  nmul : N -> N -> N;       (* a * b *)
  ndiv : N -> N -> N;       (* a / b *)
  nltb : N -> N -> bool;    (* a < b *)
  ngeb : N -> N -> bool     (* a >= b *)
}.

(** On [Q] the operations are exact and total: there is no rounding, no
    [NaN] and no infinity, and [x / 0] is [0] where JavaScript answers
    [Infinity] or [NaN]; statements that divide by a road length assume the
    length positive. *)
Definition Qltb (x y : Q) : bool :=
  (Qnum x * QDen y <? Qnum y * QDen x)%Z.

#[export] Instance Q_Number : Number Q := {|
  nlit := fun q => q;
  nadd := Qplus;
  nsub := Qminus;
  nmul := Qmult;
  ndiv := Qdiv;
  nltb := Qltb;
  ngeb := fun x y => Qle_bool y x
|}.

Definition float_of_Z (z : Z) : float :=
  match z with
  | Z0 => PrimFloat.zero
  | Zpos p => PrimFloat.of_uint63 (Uint63.of_Z (Zpos p))
  | Zneg p => PrimFloat.opp (PrimFloat.of_uint63 (Uint63.of_Z (Zpos p)))
  end.

(** A literal [n/d] is the correctly rounded quotient of two small integers,
    the double a JavaScript parser reads for the same decimal. *)
Definition float_of_Q (q : Q) : float :=
  PrimFloat.div (float_of_Z (Qnum q)) (float_of_Z (Zpos (Qden q))).

#[export] Instance float_Number : Number float := {|
  nlit := float_of_Q;
  nadd := PrimFloat.add;
  nsub := PrimFloat.sub;
  nmul := PrimFloat.mul;
  ndiv := PrimFloat.div;
  nltb := PrimFloat.ltb;
  ngeb := fun x y => PrimFloat.leb y x
|}.

(** ** Data model *)

Section Engine.
Context {N : Type} `{Number N}.

(** The object pushed by [addRoad]. *)
Record Road := mkRoad {
  id : string;
  x1 : N; y1 : N; x2 : N; y2 : N;
  dx : N; dy : N;
  len : N;
  angle : N;
  rcolor : string;
  width : N;
  speedFactor : N
}.

(** The object pushed by [spawnCar]. *)
Record Car := mkCar {
  roadIndex : nat;
  progress : N;
  color : string;
  speed : N
}.

Definition setProgress (p : N) (c : Car) : Car :=
  mkCar (roadIndex c) p (color c) (speed c).

Definition setSpeed (v : N) (c : Car) : Car :=
  mkCar (roadIndex c) (progress c) (color c) v.

(** [this.roads] and [this.cars].  The callback field [onCarFinishRoad]
    takes the engine itself as its state, so it is passed to [animate] as
    an argument instead of being stored in the record. *)
Record Engine := mkEngine {
  roads : list Road;
  cars : list Car
}.

(** Settings written once by the constructor. *)
Definition carLength : N := nlit 35.
Definition carWidth : N := nlit 18.
Definition minGap : N := nlit 20.

(** State after [new TrafficVisualizer(canvasId)]. *)
Definition init : Engine := mkEngine [] [].

(** ** Road registry *)

(** [addRoad(id, x1, y1, x2, y2, color, width, initialSpeed)].  [len] and
    [angle] stand for [Math.sqrt(dx*dx + dy*dy)] and [Math.atan2(dy, dx)],
    which leave the rationals; the caller of the model supplies them. *)
Definition addRoad (rid : string) (ax ay bx by_ : N) (col : string)
    (w initialSpeed : N) (sqrtLen atan2Angle : N) (e : Engine) : Engine :=
  let ddx := nsub bx ax in
  let ddy := nsub by_ ay in
  mkEngine
    (roads e ++ [mkRoad rid ax ay bx by_ ddx ddy sqrtLen atan2Angle col w initialSpeed])
    (cars e).

(** [this.roads.findIndex(r => r.id === roadId)]: [None] is [-1]. *)
Fixpoint findIndexFrom (roadId : string) (k : nat) (rs : list Road) : option nat :=
  match rs with
  | [] => None
  | r :: rs' => if String.eqb (id r) roadId then Some k
                else findIndexFrom roadId (S k) rs'
  end.

Definition findIndex (roadId : string) (rs : list Road) : option nat :=
  findIndexFrom roadId 0 rs.

(** ** Entry admission *)

(** The scan [for (let c of this.cars)] of [spawnCar]: the loop state is the
    pair [(minProg, lastCar)]. *)
Definition scanStep (rIdx : nat) (st : N * option Car) (c : Car) : N * option Car :=
  if Nat.eqb (roadIndex c) rIdx && nltb (progress c) (fst st)
  then (progress c, Some c)
  else st.

Definition scan (rIdx : nat) (cs : list Car) : N * option Car :=
  fold_left (scanStep rIdx) cs (nlit 1, None).

Definition lastCarOn (rIdx : nat) (cs : list Car) : option Car :=
  snd (scan rIdx cs).

(** [spawnCar(roadId, color, existingCar)]: the returned boolean and the
    engine after the call. *)
Definition spawnCar (roadId : string) (col : string) (existingCar : option Car)
    (e : Engine) : bool * Engine :=
  match findIndex roadId (roads e) with
  | None => (false, e)
  | Some rIdx =>
      match roads e !! rIdx with
      | None => (false, e)
      | Some road =>
          let blocked :=
            match lastCarOn rIdx (cars e) with
            | Some lastCar =>
                let lastCarDist := nmul (progress lastCar) (len road) in
                let requiredSpace := nadd carLength minGap in
                nltb lastCarDist requiredSpace
            | None => false
            end in
          if blocked then (false, e)
          else
            (true,
             mkEngine (roads e)
               (cars e ++
                [mkCar rIdx (nlit 0)
                   (match existingCar with Some x => color x | None => col end)
                   (match existingCar with Some x => speed x | None => nlit 0 end)]))
      end
  end.

(** What [spawnCar] appends on success. *)
Definition spawned (rIdx : nat) (col : string) (existingCar : option Car) : Car :=
  mkCar rIdx (nlit 0)
    (match existingCar with Some x => color x | None => col end)
    (match existingCar with Some x => speed x | None => nlit 0 end).

(** The entry test of [spawnCar], once the road is found. *)
Definition entryBlocked (road : Road) (last : option Car) : bool :=
  match last with
  | Some lastCar =>
      nltb (nmul (progress lastCar) (len road)) (nadd carLength minGap)
  | None => false
  end.

(** The vehicles of road [rIdx], in collection order. *)
Definition vehiclesOn (rIdx : nat) (cs : list Car) : list Car :=
  List.filter (fun c => Nat.eqb (roadIndex c) rIdx) cs.

(** ** Car following *)

(** [roadCars = this.cars.filter(c => c.roadIndex === rIdx)].  The array
    holds references to the vehicle objects of [this.cars]; a reference is
    modelled as the position of the object in [this.cars], which no step of
    the physics pass changes. *)
Definition onRoad (rIdx : nat) (cs : list Car) (i : nat) : bool :=
  match cs !! i with
  | Some c => Nat.eqb (roadIndex c) rIdx
  | None => false
  end.

Definition roadCarsOf (rIdx : nat) (cs : list Car) : list nat :=
  List.filter (onRoad rIdx cs) (seq 0 (length cs)).

(** The comparator [(a, b) => b.progress - a.progress]; a positive result
    puts [a] after [b]. *)
Definition after (cs : list Car) (a b : nat) : bool :=
  match cs !! a, cs !! b with
  | Some ca, Some cb => nltb (nlit 0) (nsub (progress cb) (progress ca))
  | _, _ => false
  end.

(** [roadCars.sort(...)]: [Array.prototype.sort] is stable, and so is this
    insertion sort; on a comparator that is a total preorder every stable
    sort returns the same array. *)
Fixpoint insertCar (cs : list Car) (a : nat) (l : list nat) : list nat :=
  match l with
  | [] => [a]
  | b :: l' => if after cs a b then b :: insertCar cs a l' else a :: b :: l'
  end.

Fixpoint sortCars (cs : list Car) (l : list nat) : list nat :=
  match l with
  | [] => []
  | a :: l' => insertCar cs a (sortCars cs l')
  end.

(** Body of the loop [for (let i = 0; i < roadCars.length; i++)]: the new
    value of [car] given [carAhead = roadCars[i-1]] ([None] is
    [undefined]). *)
Definition followCar (road : Road) (carAhead : option Car) (car : Car) : Car :=
  let targetSpeed := nmul (nlit (1 # 100)) (speedFactor road) in
  match carAhead with
  | Some ahead =>
      let myPos := nmul (progress car) (len road) in
      let aheadPos := nmul (progress ahead) (len road) in
      let dist := nsub aheadPos myPos in
      let safeDist := nadd carLength (nlit 15) in
      if nltb dist safeDist then
        let targetSpeed := nlit 0 in
        let clampedPos := nsub aheadPos safeDist in
        let car := setProgress (ndiv clampedPos (len road)) car in
        setProgress (nadd (progress car) targetSpeed) car
      else if nltb dist (nadd safeDist (nlit 60)) then
        let targetSpeed := nmul targetSpeed (nlit (3 # 10)) in
        setProgress (nadd (progress car) targetSpeed) car
      else
        setProgress (nadd (progress car) targetSpeed) car
  | None => setProgress (nadd (progress car) targetSpeed) car
  end.

(** The loop itself.  [prev] is the reference [roadCars[i-1]]; both vehicles
    are read from the current store, so the vehicle ahead is seen as the
    previous iteration left it. *)
Fixpoint followLoop (road : Road) (prev : option nat) (l : list nat)
    (cs : list Car) : list Car :=
  match l with
  | [] => cs
  | i :: l' =>
      let cs' :=
        match cs !! i with
        | Some car => <[i := followCar road (prev ≫= (cs !!.)) car]> cs
        | None => cs
        end in
      followLoop road (Some i) l' cs'
  end.

(** One callback of [this.roads.forEach((road, rIdx) => ...)]. *)
Definition followRoad (road : Road) (rIdx : nat) (cs : list Car) : list Car :=
  followLoop road None (sortCars cs (roadCarsOf rIdx cs)) cs.

(** The vehicle ahead of the one at place [k] of the processing order [l],
    read from the store [cs]: [roadCars[k-1]]. *)
Definition aheadAt (l : list nat) (cs : list Car) (k : nat) : option Car :=
  match k with
  | O => None
  | S k' => l !! k' ≫= (cs !!.)
  end.

Fixpoint physicsFrom (rIdx : nat) (rs : list Road) (cs : list Car) : list Car :=
  match rs with
  | [] => cs
  | road :: rs' => physicsFrom (S rIdx) rs' (followRoad road rIdx cs)
  end.

(** Part 2 of [animate], "Physics & Logic". *)
Definition physics (e : Engine) : Engine :=
  mkEngine (roads e) (physicsFrom 0 (roads e) (cars e)).

(** ** Junction transition *)

(** The callback [onCarFinishRoad(car, finishedRoadId)]: it may change the
    engine (it calls [spawnCar]) and returns [moved]. *)
Definition Router : Type := Car -> string -> Engine -> bool * Engine.

(** [this.cars.splice(i, 1)]. *)
Definition splice (i : nat) (e : Engine) : Engine :=
  mkEngine (roads e) (delete i (cars e)).

(** [car.progress = 1; car.speed = 0] on the vehicle at position [i]. *)
Definition park (i : nat) (e : Engine) : Engine :=
  mkEngine (roads e)
    (alter (fun c => setSpeed (nlit 0) (setProgress (nlit 1) c)) i (cars e)).

(** Body of the loop [for (let i = this.cars.length - 1; i >= 0; i--)].
    [None] is the [TypeError] raised by a property read on [undefined]:
    [car.roadIndex] when position [i] is empty, [road.id] or [road.x1] when
    the vehicle names a road that does not exist.  After the callback the
    vehicle is taken to stand at position [i] still: the routers of the
    module scripts change the collection through [spawnCar] alone, which
    appends.  Canvas calls are left out. *)
Definition transitionAt (router : option Router) (i : nat) (e : Engine)
    : option Engine :=
  match cars e !! i with
  | None => None
  | Some car =>
      let road := roads e !! roadIndex car in
      if ngeb (progress car) (nlit 1) then
        match router with
        | Some f =>
            match road with
            | None => None
            | Some r =>
                let '(moved, e') := f car (id r) e in
                if moved then Some (splice i e') else Some (park i e')
            end
        | None => Some (splice i e)
        end
      else
        match road with
        | None => None
        | Some _ => Some e
        end
  end.

(** The iterations [i = n-1, ..., 0] of that loop. *)
Fixpoint transitionLoop (router : option Router) (n : nat) (e : Engine)
    : option Engine :=
  match n with
  | O => Some e
  | S i =>
      match transitionAt router i e with
      | Some e' => transitionLoop router i e'
      | None => None
      end
  end.

(** One call of [animate()], one frame. *)
Definition animate (router : option Router) (e : Engine) : option Engine :=
  let e1 := physics e in
  transitionLoop router (length (cars e1)) e1.


(** The vehicles the transition pass leaves alone: [car.progress >= 1] is
    false. *)
Definition stillMoving (c : Car) : bool := negb (ngeb (progress c) (nlit 1)).

(** Every vehicle names a registered road: [spawnCar] writes the index it
    has just looked up, and roads are never removed. *)
Definition wellFormed (e : Engine) : Prop :=
  forall j c, cars e !! j = Some c -> is_Some (roads e !! roadIndex c).

(** ** The routing callback of the Braess module

    [viz.onCarFinishRoad] as assigned by [initMod2]; [m2_shortcut] is the
    global toggle. *)
Definition mod2Router (m2_shortcut : bool) : Router :=
  fun car finishedRoadId e =>
    if String.eqb finishedRoadId "Hwy_Top" || String.eqb finishedRoadId "Connector"
    then spawnCar "Single_Top" (color car) (Some car) e
    else if String.eqb finishedRoadId "Single_Bot" then
      if m2_shortcut then spawnCar "Connector" (color car) (Some car) e
      else spawnCar "Hwy_Bot" (color car) (Some car) e
    else (true, e).

(** A router that refuses every placement and touches nothing. *)
Definition refuseAll : Router := fun _ _ e => (false, e).

(** ** Runs of the engine *)

Inductive Op :=
| OpAddRoad (rid : string) (ax ay bx by_ : N) (col : string)
    (w initialSpeed sqrtLen atan2Angle : N)
| OpSpawn (roadId : string) (col : string)
| OpFrame.

Definition step (router : option Router) (o : Op) (e : Engine) : option Engine :=
  match o with
  | OpAddRoad rid ax ay bx by_ col w v l a =>
      Some (addRoad rid ax ay bx by_ col w v l a e)
  | OpSpawn roadId col => Some (snd (spawnCar roadId col None e))
  | OpFrame => animate router e
  end.

Fixpoint run (router : option Router) (ops : list Op) (e : Engine)
    : option Engine :=
  match ops with
  | [] => Some e
  | o :: ops' =>
      match step router o e with
      | Some e' => run router ops' e'
      | None => None
      end
  end.

End Engine.

Arguments Road N : clear implicits.
Arguments Car N : clear implicits.
Arguments Engine N : clear implicits.
Arguments Router N : clear implicits.
Arguments Op N : clear implicits.

(** ** Members of the class

    The properties an instance of [TrafficVisualizer] answers to: the fields
    the constructor assigns, the methods of the class body and, the class
    having no [extends] clause, the members every object inherits from
    [Object.prototype].  For any other name [viz.name] is [undefined], and
    the call [viz.name(...)] raises a [TypeError]. *)

Definition instanceFields : list string :=
  ["canvas"; "ctx"; "roads"; "cars"; "carLength"; "carWidth"; "minGap";
   "onCarFinishRoad"; "animate"].

Definition classMethods : list string :=
  ["constructor"; "resize"; "addRoad"; "spawnCar"; "animate"].

Definition objectPrototypeMembers : list string :=
  ["constructor"; "hasOwnProperty"; "isPrototypeOf"; "propertyIsEnumerable";
   "toLocaleString"; "toString"; "valueOf"; "__proto__";
   "__defineGetter__"; "__defineSetter__"; "__lookupGetter__"; "__lookupSetter__"].

Definition hasMember (name : string) : bool :=
  existsb (String.eqb name)
    (instanceFields ++ classMethods ++ objectPrototypeMembers).

(** The method calls on [viz] written in the module scripts [initMod1],
    [initMod2], [updateMod2] and [initMod4]. *)
Definition calledMethods : list string :=
  ["addRoad"; "spawnCar"; "updateSpeed"].

(** ** Concrete configurations *)

Section Traces.
Context {N : Type} `{Number N}.

(** A horizontal road of length 40 with the defaults of [addRoad]. *)
Definition shortRoad : Road N :=
  mkRoad "S" (nlit 0) (nlit 0) (nlit 40) (nlit 0) (nsub (nlit 40) (nlit 0))
    (nsub (nlit 0) (nlit 0)) (nlit 40) (nlit 0) "#bdc3c7" (nlit 30) (nlit 1).

(** The road is registered, a vehicle enters, is driven to the end of the
    road and refused by the router; a second vehicle is then admitted. *)
Definition parkScript : list (Op N) :=
  [OpAddRoad "S" (nlit 0) (nlit 0) (nlit 40) (nlit 0) "#bdc3c7" (nlit 30)
     (nlit 1) (nlit 40) (nlit 0);
   OpSpawn "S" "red"]
  ++ repeat OpFrame 101.

Definition shortRoadScript : list (Op N) :=
  parkScript ++ [OpSpawn "S" "blue"].

Definition parkedCar : Car N := mkCar 0 (nlit 1) "red" (nlit 0).
Definition enteredCar : Car N := mkCar 0 (nlit 0) "blue" (nlit 0).

Definition stackedShortRoad : Engine N :=
  mkEngine [shortRoad] [parkedCar; enteredCar].

Definition parkedAlone : Engine N := mkEngine [shortRoad] [parkedCar].

(** A single vehicle stands on the road, at distance 40 from its start, and
    the next vehicle is admitted all the same. *)
Definition soleParkedAdmitted : Prop :=
  run (Some refuseAll) parkScript init = Some parkedAlone /\
  findIndex "S" (roads parkedAlone) = Some 0%nat /\
  vehiclesOn 0 (cars parkedAlone) = [parkedCar] /\
  ngeb (nmul (progress parkedCar) (len shortRoad)) (nadd carLength minGap) = false /\
  spawnCar "S" "blue" None parkedAlone = (true, stackedShortRoad).

(** The road holds a vehicle, the scan of [spawnCar] selects none, and entry
    is granted although the vehicle of least progress is nearer to the
    start than [carLength + minGap]. *)
Definition rearmostIgnored : Prop :=
  run (Some refuseAll) parkScript init = Some parkedAlone /\
  In parkedCar (cars parkedAlone) /\ roadIndex parkedCar = 0%nat /\
  lastCarOn 0 (cars parkedAlone) = None /\
  nltb (nmul (progress parkedCar) (len shortRoad)) (nadd carLength minGap) = true /\
  fst (spawnCar "S" "blue" None parkedAlone) = true.

(** A horizontal road of length 400 with speed factor 10: ten frames of
    travel add up to the length of the road. *)
Definition tenRoad : Road N :=
  mkRoad "T" (nlit 0) (nlit 0) (nlit 400) (nlit 0) (nsub (nlit 400) (nlit 0))
    (nsub (nlit 0) (nlit 0)) (nlit 400) (nlit 0) "#bdc3c7" (nlit 30) (nlit 10).


(** Two vehicles enter the road two frames apart and [n] more frames run;
    the router refuses the first vehicle at the end of the road. *)
Definition queueScript (n : nat) : list (Op N) :=
  [OpAddRoad "R" (nlit 0) (nlit 0) (nlit 400) (nlit 0) "#bdc3c7" (nlit 30)
     (nlit 11) (nlit 400) (nlit 0);
   OpSpawn "R" "red"; OpFrame; OpFrame; OpSpawn "R" "blue"]
  ++ repeat OpFrame n.


(** In frame 12 the follower reaches the end of the road behind the parked
    leader and is refused and parked in its turn; in frame 13, still
    refused by the router, it is clamped back below progress 1. *)
Definition parkedThenReleased : Prop :=
  exists e11 e12 e13 b11 b12 b13,
    run (Some refuseAll) (queueScript 11) init = Some e11 /\
    cars (physics e11) !! 1%nat = Some b11 /\
    ngeb (progress b11) (nlit 1) = true /\
    animate (Some refuseAll) e11 = Some e12 /\
    cars e12 !! 1%nat = Some b12 /\
    progress b12 = nlit 1 /\ speed b12 = nlit 0 /\
    animate (Some refuseAll) e12 = Some e13 /\
    cars e13 !! 1%nat = Some b13 /\
    nltb (progress b13) (nlit 1) = true.

(** A router that places every vehicle that finishes road R on road S,
    through [spawnCar], and refuses every other vehicle. *)
Definition feederRouter : Router N :=
  fun car finishedRoadId e =>
    if String.eqb finishedRoadId "R"
    then spawnCar "S" (color car) (Some car) e
    else (false, e).


(** The trace of claim C9: [stackedShortRoad] is reached from the empty
    engine, and in the next frame the follower takes the clamp branch of
    [followCar], is given a progress below 0 and keeps it to the end of the
    frame. *)
Definition clampGoesNegative : Prop :=
  run (Some refuseAll) shortRoadScript init = Some stackedShortRoad /\
  let ahead := followCar shortRoad None parkedCar in
  let aheadPos := nmul (progress ahead) (len shortRoad) in
  let myPos := nmul (progress enteredCar) (len shortRoad) in
  nltb (nsub aheadPos myPos) (nadd carLength (nlit 15)) = true /\
  exists e' car',
    animate (Some refuseAll) stackedShortRoad = Some e' /\
    cars e' !! 1%nat = Some car' /\
    progress car' = progress (followCar shortRoad (Some ahead) enteredCar) /\
    nltb (progress car') (nlit 0) = true.

End Traces.

(** ** The module scripts

    The functions of the lesson modules that drive the engine.  Writes to
    the page ([innerText], [style.color]) are left out or returned as a
    record; [Math.random()] and [parseInt(slider.value)] are arguments. *)

(** [Math.abs] and [Math.max]. *)
Class NumberMath (N : Type) := {
  nabs : N -> N;
  nmax : N -> N -> N
}.

#[export] Instance Q_NumberMath : NumberMath Q := {|
  nabs := Qabs;
  nmax := Qmax
|}.

(** [Math.max] on doubles: [NaN] if an argument is, and [+0] over [-0]. *)
Definition float_max (a b : float) : float :=
  if PrimFloat.is_nan a || PrimFloat.is_nan b then PrimFloat.nan
  else if PrimFloat.ltb a b then b
  else if PrimFloat.ltb b a then a
  else if PrimFloat.get_sign a then b else a.

#[export] Instance float_NumberMath : NumberMath float := {|
  nabs := PrimFloat.abs;
  nmax := float_max
|}.

Section Modules.
Context {N : Type} `{Number N} `{NumberMath N}.

Definition setSpeedFactor (v : N) (r : Road N) : Road N :=
  mkRoad (id r) (x1 r) (y1 r) (x2 r) (y2 r) (dx r) (dy r) (len r) (angle r)
    (rcolor r) (width r) v.

(** [viz.roads.find(r => r.id === rid).speedFactor = v], the write of
    [updateMod1].  [None] is the [TypeError] of a property write on
    [undefined], when [find] finds no road. *)
Definition writeSpeedFactor (rid : string) (v : N) (e : Engine N) : option (Engine N) :=
  match findIndex rid (roads e) with
  | Some k => Some (mkEngine (alter (setSpeedFactor v) k (roads e)) (cars e))
  | None => None
  end.

(** The three texts [updateMod1] can put into [m1-msg]. *)
Inductive Mod1Message :=
| Equilibrium      (* "Equilibrium: Times are equal." *)
| RouteASlower     (* "Route A is slower! Switch to B." *)
| RouteAFaster.    (* "Route A is faster! Switch to A." *)

(** What [updateMod1] shows: the four values (the times before
    [toFixed(1)]) and the message. *)
Record Mod1View := mkMod1View {
  valACars : N;
  valATime : N;
  valBCars : N;
  valBTime : N;
  m1Msg : Mod1Message
}.

Definition m1_total : N := nlit 4000.

(** [updateMod1()], with the global [m1_carsA] as an argument. *)
Definition updateMod1 (m1_carsA : N) (viz : Engine N) : option (Engine N * Mod1View) :=
  let m1_carsB := nsub m1_total m1_carsA in
  let timeA := nadd (nlit 10) (ndiv m1_carsA (nlit 100)) in
  let timeB := nlit 45 in
  match writeSpeedFactor "A" (ndiv (nlit 10) timeA) viz with
  | None => None
  | Some viz1 =>
      match writeSpeedFactor "B" (ndiv (nlit 10) (nlit 45)) viz1 with
      | None => None
      | Some viz2 =>
          Some (viz2,
                mkMod1View m1_carsA timeA m1_carsB timeB
                  (if nltb (nabs (nsub timeA timeB)) (nlit 1) then Equilibrium
                   else if nltb timeB timeA then RouteASlower
                   else RouteAFaster))
      end
  end.

(** The assignments to [m1_carsA] in [mod1_move(dir)]. *)
Definition mod1_moved (dir : string) (m1_carsA : N) : N :=
  let a1 := if String.eqb dir "toB" && ngeb m1_carsA (nlit 100)
            then nsub m1_carsA (nlit 100) else m1_carsA in
  if String.eqb dir "toA" && ngeb (nlit 3900) a1
  then nadd a1 (nlit 100) else a1.

(** [mod1_move(dir)]: the new [m1_carsA] and the outcome of [updateMod1]. *)
Definition mod1_move (dir : string) (m1_carsA : N) (viz : Engine N)
    : N * option (Engine N * Mod1View) :=
  (mod1_moved dir m1_carsA, updateMod1 (mod1_moved dir m1_carsA) viz).

(** [mod1_reset()]. *)
Definition mod1_reset (viz : Engine N) : N * option (Engine N * Mod1View) :=
  (nlit 4000, updateMod1 (nlit 4000) viz).

(** The values of [m1_carsA] after a sequence of button presses, starting
    from the initial 4000: [Some dir] is [mod1_move(dir)], [None] is
    [mod1_reset()]. *)
Definition mod1_pressed (presses : list (option string)) : N :=
  fold_left
    (fun a press =>
       match press with
       | Some dir => mod1_moved dir a
       | None => nlit 4000
       end)
    presses (nlit 4000).

(** The two [addRoad] calls of [initMod1] on a canvas of width [w] and
    height [h]; the roads are horizontal, so for [w >= 100] the length
    [Math.sqrt(dx*dx + dy*dy)] is [dx] and the angle is 0. *)
Definition initMod1Roads (w h : N) (viz : Engine N) : Engine N :=
  let ya := nmul h (nlit (3 # 10)) in
  let yb := nmul h (nlit (7 # 10)) in
  let xr := nsub w (nlit 50) in
  addRoad "B" (nlit 50) yb xr yb "#95a5a6" (nlit 30) (nlit 1)
    (nsub xr (nlit 50)) (nlit 0)
    (addRoad "A" (nlit 50) ya xr ya "#95a5a6" (nlit 30) (nlit 1)
       (nsub xr (nlit 50)) (nlit 0) viz).

(** The timer callback of [initMod1]; [rnd] is [Math.random()]. *)
Definition m1Tick (rnd m1_carsA : N) (viz : Engine N) : Engine N :=
  if nltb rnd (ndiv m1_carsA m1_total)
  then snd (spawnCar "A" "#e74c3c" None viz)
  else snd (spawnCar "B" "#27ae60" None viz).

(** [Math.max(0, 4000 - (toll * 200))] of [initMod4]. *)
Definition carsOnMain (toll : N) : N :=
  nmax (nlit 0) (nsub (nlit 4000) (nmul toll (nlit 200))).

(** The timer callback of [initMod4]; [toll] is [parseInt(slider.value)]
    and [rnd] is [Math.random()]. *)
Definition m4Tick (toll rnd : N) (viz : Engine N) : Engine N :=
  let probMain := ndiv (carsOnMain toll) (nlit 4000) in
  if nltb rnd probMain
  then snd (spawnCar "Main" "#e74c3c" None viz)
  else snd (spawnCar "Long" "#27ae60" None viz).

(** The timer callback of [initMod2]; [rnd1] and [rnd2] are the two calls
    of [Math.random()]. *)
Definition m2Tick (m2_shortcut : bool) (rnd1 rnd2 : N) (viz : Engine N) : Engine N :=
  if m2_shortcut then
    if nltb rnd1 (nlit (7 # 10)) then
      if nltb rnd2 (nlit (8 # 10))
      then snd (spawnCar "Single_Bot" "#e74c3c" None viz)
      else snd (spawnCar "Hwy_Top" "#2980b9" None viz)
    else viz
  else
    if nltb rnd1 (nlit (5 # 10)) then
      if nltb rnd2 (nlit (5 # 10))
      then snd (spawnCar "Hwy_Top" "#2980b9" None viz)
      else snd (spawnCar "Single_Bot" "#2ecc71" None viz)
    else viz.

End Modules.

(** ** Vocabulary of the statements *)

(** Invariant of the scan of [spawnCar] after the vehicles [seen]: the
    loop state [(minProg, lastCar)] holds the rearmost vehicle of the road
    among those with progress below 1, or the initial [(1, null)]. *)
Definition scanInv (rIdx : nat) (seen : list (Car Q)) (st : Q * option (Car Q)) : Prop :=
  match snd st with
  | None =>
      fst st = 1%Q /\
      forall c, In c seen -> roadIndex c = rIdx -> (1 <= progress c)%Q
  | Some l =>
      In l seen /\ roadIndex l = rIdx /\ fst st = progress l /\
      (progress l < 1)%Q /\
      forall c, In c seen -> roadIndex c = rIdx -> (progress l <= progress c)%Q
  end.


(** [baseSpeedConstant * road.speedFactor]. *)
Definition baseTarget (road : Road Q) : Q := ((1 # 100) * speedFactor road)%Q.


(** The processing order [l] runs through the store [cs] by descending
    progress. *)
Definition descending (cs : list (Car Q)) (l : list nat) : Prop :=
  forall k a b ca cb,
    l !! k = Some a -> l !! S k = Some b ->
    cs !! a = Some ca -> cs !! b = Some cb ->
    (progress cb <= progress ca)%Q.


(** A router that changes the engine as a call of [spawnCar] with the
    finished vehicle as [existingCar] does: the roads are kept, at most one
    vehicle is appended, on a registered road and with the colour and speed
    of the finished vehicle, and nothing is appended when it answers
    false. *)
Definition spawnOnly {N : Type} `{Number N} (f : Router N) : Prop :=
  forall (car : Car N) (rid : string) (e : Engine N),
    exists extra,
      snd (f car rid e) = mkEngine (roads e) (cars e ++ extra) /\
      (length extra <= 1)%nat /\
      (fst (f car rid e) = false -> extra = []) /\
      forall c, In c extra ->
        is_Some (roads e !! roadIndex c) /\
        color c = color car /\ speed c = speed car.

(** The progress after a frame of a vehicle with no vehicle ahead:
    [car.progress += 0.01 * road.speedFactor]. *)
Definition advance {N : Type} `{Number N} (road : Road N) (p : N) : N :=
  nadd p (nmul (nlit (1 # 100)) (speedFactor road)).

(** The test [car.progress >= 1] of the transition pass. *)
Definition finished {N : Type} `{Number N} (c : Car N) : bool :=
  ngeb (progress c) (nlit 1).

(** The vehicle after [car.progress = 1; car.speed = 0]. *)
Definition parked {N : Type} `{Number N} (c : Car N) : Car N :=
  setSpeed (nlit 0) (setProgress (nlit 1) c).

(** A router that keeps the roads and changes the collection by appending
    vehicles only, each on a registered road and satisfying [P]; this is
    what a router does that places vehicles through [spawnCar]. *)
Definition appends {N : Type} `{Number N} (P : Car N -> Prop) (f : Router N) : Prop :=
  forall (car : Car N) (rid : string) (e : Engine N),
    exists extra,
      snd (f car rid e) = mkEngine (roads e) (cars e ++ extra) /\
      Forall (fun c => is_Some (roads e !! roadIndex c) /\ P c) extra.


(** The appended vehicles enter at progress 0, as with [spawnCar]. *)
Definition entersAtStart {N : Type} `{Number N} (f : Router N) : Prop :=
  appends (fun c => progress c = nlit 0) f.

(** The answer [moved] on which the transition pass acts for the finished
    vehicle [c] that stands behind the vehicles [pre] in the collection:
    [true] without a router, and otherwise what the router returns for [c]
    and the id of its road in an engine whose collection begins with [pre]
    and [c]. *)
Definition called {N : Type} `{Number N} (router : option (Router N))
    (rs : list (Road N)) (pre : list (Car N)) (c : Car N) (moved : bool) : Prop :=
  match router with
  | None => moved = true
  | Some f =>
      exists road tail,
        rs !! roadIndex c = Some road /\
        fst (f c (id road) (mkEngine rs (pre ++ c :: tail))) = moved
  end.

(** What the transition pass makes of the vehicles [cs] that stand behind
    [pre]: a vehicle with progress below 1 is kept as it is, a finished
    vehicle is dropped when the answer is [true] and kept parked when it is
    [false]; the order is kept. *)
Inductive passOutcome {N : Type} `{Number N} (router : option (Router N))
    (rs : list (Road N)) : list (Car N) -> list (Car N) -> list (Car N) -> Prop :=
| po_nil pre : passOutcome router rs pre [] []
| po_moving pre c cs outs :
    finished c = false ->
    passOutcome router rs (pre ++ [c]) cs outs ->
    passOutcome router rs pre (c :: cs) (c :: outs)
| po_removed pre c cs outs :
    finished c = true -> called router rs pre c true ->
    passOutcome router rs (pre ++ [c]) cs outs ->
    passOutcome router rs pre (c :: cs) outs
| po_parked pre c cs outs :
    finished c = true -> called router rs pre c false ->
    passOutcome router rs (pre ++ [c]) cs outs ->
    passOutcome router rs pre (c :: cs) (parked c :: outs).


(** The first vehicle of road [rIdx] in the collection stands parked at the
    end of the road with colour [col], and no vehicle of that road is
    beyond the end of the road. *)
Definition parkedFirst (e : Engine Q) (rIdx : nat) (col : string) : Prop :=
  exists before rest,
    cars e = before ++ mkCar rIdx 1%Q col 0%Q :: rest /\
    (forall c, In c before -> roadIndex c <> rIdx) /\
    (forall c, In c rest -> roadIndex c = rIdx -> (progress c <= 1)%Q).

(** * Properties *)

(** ** Comparisons on the rationals *)

(** Unfolds the operations of [Number] at the carrier [Q]. *)
Ltac qnum :=
  cbn [nlit nadd nsub nmul ndiv nltb ngeb Q_Number] in *.

Lemma Qltb_lt (x y : Q) : Qltb x y = true <-> (x < y)%Q.
Proof. unfold Qltb, Qlt. apply Z.ltb_lt. Qed.

Lemma Qltb_ge (x y : Q) : Qltb x y = false <-> (y <= x)%Q.
Proof. unfold Qltb, Qle. apply Z.ltb_ge. Qed.

Lemma Qgeb_le (x y : Q) : Qle_bool y x = true <-> (y <= x)%Q.
Proof. apply Qle_bool_iff. Qed.

Lemma Qgeb_lt (x y : Q) : Qle_bool y x = false <-> (x < y)%Q.
Proof.
  rewrite <- not_true_iff_false, Qle_bool_iff. split.
  - apply Qnot_le_lt.
  - apply Qlt_not_le.
Qed.

(** ** Road lookup and admission, for every carrier *)

Section Admission.
Context {N : Type} `{Number N}.

Lemma findIndexFrom_lookup (roadId : string) (rs : list (Road N)) :
  forall k i, findIndexFrom roadId k rs = Some i ->
    exists r, (k <= i)%nat /\ rs !! (i - k)%nat = Some r /\ id r = roadId.
Proof.
  induction rs as [|r rs IH]; intros k i Hf; simpl in Hf; [discriminate|].
  destruct (String.eqb (id r) roadId) eqn:E.
  - injection Hf as <-. exists r. rewrite Nat.sub_diag.
    apply String.eqb_eq in E. auto.
  - destruct (IH _ _ Hf) as (r' & Hle & Hl & Hid).
    exists r'. split; [lia|]. split; [|exact Hid].
    replace (i - k)%nat with (S (i - S k)) by lia. exact Hl.
Qed.

Lemma findIndex_lookup (roadId : string) (rs : list (Road N)) (i : nat) :
  findIndex roadId rs = Some i -> exists r, rs !! i = Some r /\ id r = roadId.
Proof.
  intros Hf. destruct (findIndexFrom_lookup _ _ _ _ Hf) as (r & _ & Hl & Hid).
  rewrite Nat.sub_0_r in Hl. eauto.
Qed.

Lemma spawnCar_found (roadId col : string) (ex : option (Car N)) (e : Engine N)
    (rIdx : nat) (road : Road N) :
  findIndex roadId (roads e) = Some rIdx ->
  roads e !! rIdx = Some road ->
  spawnCar roadId col ex e =
    if entryBlocked road (lastCarOn rIdx (cars e)) then (false, e)
    else (true, mkEngine (roads e) (cars e ++ [spawned rIdx col ex])).
Proof.
  intros Hf Hl. unfold spawnCar. rewrite Hf, Hl. reflexivity.
Qed.

Lemma spawnCar_unknown (roadId col : string) (ex : option (Car N)) (e : Engine N) :
  findIndex roadId (roads e) = None -> spawnCar roadId col ex e = (false, e).
Proof. intros Hf. unfold spawnCar. rewrite Hf. reflexivity. Qed.

Lemma spawnCar_cases (roadId col : string) (ex : option (Car N)) (e : Engine N) :
  spawnCar roadId col ex e = (false, e) \/
  exists rIdx, findIndex roadId (roads e) = Some rIdx /\
    spawnCar roadId col ex e =
      (true, mkEngine (roads e) (cars e ++ [spawned rIdx col ex])).
Proof.
  destruct (findIndex roadId (roads e)) as [rIdx|] eqn:Hf.
  - destruct (findIndex_lookup _ _ _ Hf) as (road & Hl & _).
    rewrite (spawnCar_found _ _ _ _ _ _ Hf Hl).
    destruct (entryBlocked road _); [left|right; exists rIdx]; auto.
  - left. apply spawnCar_unknown, Hf.
Qed.

(** A call of [spawnCar] only appends to the vehicle collection. *)
Lemma spawnCar_appends (roadId col : string) (ex : option (Car N)) (e : Engine N) :
  roads (snd (spawnCar roadId col ex e)) = roads e /\
  exists extra, cars (snd (spawnCar roadId col ex e)) = cars e ++ extra.
Proof.
  destruct (spawnCar_cases roadId col ex e) as [-> | (rIdx & _ & ->)]; simpl.
  - split; [reflexivity|]. exists []. symmetry. apply app_nil_r.
  - split; [reflexivity|]. eauto.
Qed.

End Admission.


(** C9. A configuration reachable from the empty engine (a road of length
    40, a vehicle parked at its end, a second vehicle admitted behind it)
    in which the clamp of the car-following pass assigns a progress
    strictly below 0, which nothing resets before the frame ends; in exact
    arithmetic and in binary64. *)
Theorem clamp_drives_progress_negative :
  @clampGoesNegative Q _ /\ @clampGoesNegative float _.
Proof.
  split.
  - split; [vm_compute; reflexivity|].
    split; [vm_compute; reflexivity|].
    eexists; eexists.
    split; [vm_compute; reflexivity|].
    split; [reflexivity|].
    split; vm_compute; reflexivity.
  - split; [vm_compute; reflexivity|].
    split; [vm_compute; reflexivity|].
    eexists; eexists.
    split; [vm_compute; reflexivity|].
    split; [reflexivity|].
    split; vm_compute; reflexivity.
Qed.

(** C8. A failing [spawnCar] returns [false] (the model is a total function:
    no path raises) and hands back the engine it was given, roads and
    vehicles alike; it fails for an unknown road id and for a congested
    entry, and for nothing else. *)
Theorem spawnCar_failure_unchanged {N : Type} `{Number N}
    (roadId col : string) (ex : option (Car N)) (e : Engine N) :
  (fst (spawnCar roadId col ex e) = false -> snd (spawnCar roadId col ex e) = e) /\
  (fst (spawnCar roadId col ex e) = false <->
     findIndex roadId (roads e) = None \/
     exists rIdx road lastCar,
       findIndex roadId (roads e) = Some rIdx /\ roads e !! rIdx = Some road /\
       lastCarOn rIdx (cars e) = Some lastCar /\
       nltb (nmul (progress lastCar) (len road)) (nadd carLength minGap) = true).
Proof.
  split.
  - destruct (spawnCar_cases roadId col ex e) as [-> | (rIdx & _ & ->)]; simpl;
      [reflexivity | discriminate].
  - destruct (findIndex roadId (roads e)) as [rIdx|] eqn:Hf.
    + destruct (findIndex_lookup _ _ _ Hf) as (road & Hl & _).
      rewrite (spawnCar_found _ _ _ _ _ _ Hf Hl). unfold entryBlocked.
      destruct (lastCarOn rIdx (cars e)) as [lastCar|] eqn:Hlast.
      * destruct (nltb _ _) eqn:Hb; simpl; split.
        -- intros _. right. exists rIdx, road, lastCar. auto.
        -- reflexivity.
        -- discriminate.
        -- intros [Hn | (r' & road' & l' & Hr & Hroad & Hl' & Hlt)]; [discriminate|].
           injection Hr as <-. rewrite Hl in Hroad. injection Hroad as <-.
           rewrite Hlast in Hl'. injection Hl' as <-. congruence.
      * simpl. split; [discriminate|].
        intros [Hn | (r' & road' & l' & Hr & _ & Hl' & _)]; [discriminate|].
        injection Hr as <-. rewrite Hlast in Hl'. discriminate.
    + rewrite (spawnCar_unknown _ _ _ _ Hf). simpl. split; auto.
Qed.

Lemma spawnCar_failure_unchanged_witness :
  fst (spawnCar "S" "green" None (@stackedShortRoad float _)) = false /\
  snd (spawnCar "S" "green" None (@stackedShortRoad float _)) = stackedShortRoad.
Proof.
  split; [reflexivity|].
  apply (proj1 (spawnCar_failure_unchanged "S" "green" None stackedShortRoad)).
  reflexivity.
Defined.

(** ** Admission on the rationals *)

Section ExactAdmission.
Local Open Scope Q_scope.

Lemma scanStep_inv (rIdx : nat) (seen : list (Car Q)) (st : Q * option (Car Q)) (c : Car Q) :
  scanInv rIdx seen st -> scanInv rIdx (seen ++ [c]) (scanStep rIdx st c).
Proof.
  destruct st as [m o]. unfold scanInv, scanStep. simpl. intros Hinv.
  assert (Hkeep : (roadIndex c = rIdx -> m <= progress c) ->
    match o with
    | Some l =>
        In l (seen ++ [c]) /\ roadIndex l = rIdx /\ m = progress l /\
        progress l < 1 /\
        (forall c0, In c0 (seen ++ [c]) -> roadIndex c0 = rIdx ->
           progress l <= progress c0)
    | None =>
        m = 1 /\
        (forall c0, In c0 (seen ++ [c]) -> roadIndex c0 = rIdx -> 1 <= progress c0)
    end).
  { intros Hc. destruct o as [l|].
    - destruct Hinv as (Hin & Hl & -> & Hl1 & Hmin).
      split; [apply in_app_iff; left; exact Hin|]. repeat split; auto.
      intros c' Hc' Hr'. apply in_app_iff in Hc' as [Hc'|[<-|[]]]; auto.
    - destruct Hinv as (-> & Hall). split; [reflexivity|].
      intros c' Hc' Hr'. apply in_app_iff in Hc' as [Hc'|[<-|[]]]; auto. }
  destruct (Nat.eqb_spec (roadIndex c) rIdx) as [Hr|Hr]; simpl.
  - destruct (Qltb (progress c) m) eqn:Hlt; simpl.
    + apply Qltb_lt in Hlt.
      split; [apply in_app_iff; right; left; reflexivity|].
      split; [exact Hr|]. split; [reflexivity|].
      destruct o as [l|].
      * destruct Hinv as (Hin & Hl & -> & Hl1 & Hmin). split; [lra|].
        intros c' Hc' Hr'. apply in_app_iff in Hc' as [Hc'|[<-|[]]]; [|lra].
        specialize (Hmin _ Hc' Hr'). lra.
      * destruct Hinv as (-> & Hall). split; [exact Hlt|].
        intros c' Hc' Hr'. apply in_app_iff in Hc' as [Hc'|[<-|[]]]; [|lra].
        specialize (Hall _ Hc' Hr'). lra.
    + apply Qltb_ge in Hlt. apply Hkeep. intros _. exact Hlt.
  - apply Hkeep. intros Hc. contradiction.
Qed.

Lemma scan_fold_inv (rIdx : nat) (cs : list (Car Q)) :
  forall seen st, scanInv rIdx seen st ->
    scanInv rIdx (seen ++ cs) (fold_left (scanStep rIdx) cs st).
Proof.
  induction cs as [|c cs IH]; intros seen st Hinv; simpl.
  - rewrite app_nil_r. exact Hinv.
  - replace (seen ++ c :: cs) with ((seen ++ [c]) ++ cs)
      by (rewrite <- app_assoc; reflexivity).
    apply IH, scanStep_inv, Hinv.
Qed.

Lemma scan_inv (rIdx : nat) (cs : list (Car Q)) : scanInv rIdx cs (scan rIdx cs).
Proof.
  apply (scan_fold_inv rIdx cs [] (1, None)). simpl. split; [reflexivity|].
  intros c [].
Qed.

Lemma lastCarOn_None (rIdx : nat) (cs : list (Car Q)) :
  lastCarOn rIdx cs = None <->
  forall c, In c cs -> roadIndex c = rIdx -> 1 <= progress c.
Proof.
  pose proof (scan_inv rIdx cs) as Hinv. unfold lastCarOn, scanInv in *.
  destruct (snd (scan rIdx cs)) as [l|].
  - destruct Hinv as (Hin & Hr & _ & Hlt & _). split; [discriminate|].
    intros Hall. specialize (Hall _ Hin Hr). lra.
  - destruct Hinv as (_ & Hall). split; auto.
Qed.

Lemma lastCarOn_Some (rIdx : nat) (cs : list (Car Q)) (l : Car Q) :
  lastCarOn rIdx cs = Some l ->
  In l cs /\ roadIndex l = rIdx /\ progress l < 1 /\
  forall c, In c cs -> roadIndex c = rIdx -> progress l <= progress c.
Proof.
  pose proof (scan_inv rIdx cs) as Hinv. unfold lastCarOn, scanInv in *.
  intros Hl. rewrite Hl in Hinv. tauto.
Qed.

Lemma spawnCar_granted (roadId col : string) (ex : option (Car Q)) (e : Engine Q)
    (rIdx : nat) (road : Road Q) :
  findIndex roadId (roads e) = Some rIdx ->
  roads e !! rIdx = Some road ->
  fst (spawnCar roadId col ex e) = true <->
  match lastCarOn rIdx (cars e) with
  | None => True
  | Some l => 35 + 20 <= progress l * len road
  end.
Proof.
  intros Hf Hl. rewrite (spawnCar_found _ _ _ _ _ _ Hf Hl). unfold entryBlocked.
  destruct (lastCarOn rIdx (cars e)) as [l|]; simpl; [|tauto].
  destruct (Qltb _ _) eqn:Hb; simpl.
  - apply Qltb_lt in Hb. split; [discriminate|]. intros Hge. exfalso.
    unfold carLength, minGap in Hb. simpl in Hb. lra.
  - apply Qltb_ge in Hb. tauto.
Qed.

End ExactAdmission.

(** C1 as stated fails: with the sole vehicle of a road of length 40 parked
    at progress 1, D = 40 is below 55 and the call returns true; in exact
    arithmetic and in binary64. *)
Lemma spawnCar_sole_vehicle_counterexample :
  @soleParkedAdmitted Q _ /\ @soleParkedAdmitted float _.
Proof.
  split; (split; [vm_compute; reflexivity|]); repeat split.
Qed.

(** C1, amended. On an existing road that holds exactly one vehicle, at
    distance D = progress * len from the start, [spawnCar] returns true iff
    the vehicle's progress is at least 1 or D >= carLength + minGap (the
    boundary is decided as >=); a successful call appends one vehicle with
    progress 0, with the colour and speed of [existingCar] when one is
    given and the given colour and speed 0 otherwise. *)
Theorem spawnCar_sole_vehicle (roadId col : string) (ex : option (Car Q))
    (e : Engine Q) (rIdx : nat) (road : Road Q) (c : Car Q) :
  findIndex roadId (roads e) = Some rIdx ->
  roads e !! rIdx = Some road ->
  vehiclesOn rIdx (cars e) = [c] ->
  (fst (spawnCar roadId col ex e) = true <->
     (1 <= progress c \/ carLength + minGap <= progress c * len road)%Q) /\
  (fst (spawnCar roadId col ex e) = true ->
     snd (spawnCar roadId col ex e) =
       mkEngine (roads e)
         (cars e ++
          [mkCar rIdx 0%Q
             (match ex with Some x => color x | None => col end)
             (match ex with Some x => speed x | None => 0%Q end)])).
Proof.
  intros Hf Hl Hsole.
  assert (Hc : In c (cars e) /\ roadIndex c = rIdx).
  { assert (Hin : In c (vehiclesOn rIdx (cars e))) by (rewrite Hsole; left; auto).
    apply filter_In in Hin as [Hin Hr]. apply Nat.eqb_eq in Hr. auto. }
  assert (Honly : forall c', In c' (cars e) -> roadIndex c' = rIdx -> c' = c).
  { intros c' Hin Hr.
    assert (Hin' : In c' (vehiclesOn rIdx (cars e))).
    { apply filter_In. split; [exact Hin|]. apply Nat.eqb_eq, Hr. }
    rewrite Hsole in Hin'. destruct Hin' as [<-|[]]. reflexivity. }
  split.
  - rewrite (spawnCar_granted _ _ _ _ _ _ Hf Hl).
    destruct (lastCarOn rIdx (cars e)) as [l|] eqn:Hlast.
    + apply lastCarOn_Some in Hlast as (Hin & Hr & Hlt & _).
      rewrite (Honly _ Hin Hr) in *. unfold carLength, minGap. simpl.
      split; [auto|]. intros [Hge|Hge]; [lra|exact Hge].
    + split; [|auto]. intros _. left.
      apply (proj1 (lastCarOn_None _ _) Hlast); tauto.
  - rewrite (spawnCar_found _ _ _ _ _ _ Hf Hl).
    destruct (entryBlocked road _); simpl; [discriminate|reflexivity].
Qed.

Lemma spawnCar_sole_vehicle_witness :
  fst (spawnCar "S" "blue" None (@parkedAlone Q _)) = true /\
  snd (spawnCar "S" "blue" None (@parkedAlone Q _)) = stackedShortRoad.
Proof.
  pose proof (spawnCar_sole_vehicle "S" "blue" None parkedAlone 0 shortRoad
                parkedCar eq_refl eq_refl eq_refl) as [Hiff Hsnd].
  assert (Ht : fst (spawnCar "S" "blue" None (@parkedAlone Q _)) = true).
  { apply Hiff. left. simpl. lra. }
  split; [exact Ht | exact (Hsnd Ht)].
Defined.

(** C7 as stated fails: a vehicle stands on the road, the scan selects no
    comparand and entry is granted, although the vehicle of least progress
    is at distance 40 < 55; in exact arithmetic and in binary64. *)
Lemma spawnCar_rearmost_counterexample :
  @rearmostIgnored Q _ /\ @rearmostIgnored float _.
Proof.
  split; (split; [vm_compute; reflexivity|]); repeat split; left; reflexivity.
Qed.

(** C7, amended. On an existing road the admission check scans every
    vehicle of the collection and keeps, among the vehicles of that road
    whose progress is below 1, one of minimum progress as the sole
    comparand; entry is granted without any comparison exactly when the
    road holds no vehicle with progress below 1, and otherwise exactly when
    the comparand is at distance >= carLength + minGap. *)
Theorem spawnCar_rearmost_below_one (roadId col : string) (ex : option (Car Q))
    (e : Engine Q) (rIdx : nat) (road : Road Q) :
  findIndex roadId (roads e) = Some rIdx ->
  roads e !! rIdx = Some road ->
  (lastCarOn rIdx (cars e) = None <->
     forall c, In c (cars e) -> roadIndex c = rIdx -> (1 <= progress c)%Q) /\
  (forall l, lastCarOn rIdx (cars e) = Some l ->
     In l (cars e) /\ roadIndex l = rIdx /\ (progress l < 1)%Q /\
     forall c, In c (cars e) -> roadIndex c = rIdx -> (progress l <= progress c)%Q) /\
  (fst (spawnCar roadId col ex e) = true <->
     match lastCarOn rIdx (cars e) with
     | None => True
     | Some l => (carLength + minGap <= progress l * len road)%Q
     end).
Proof.
  intros Hf Hl. split; [apply lastCarOn_None|].
  split; [intros l; apply lastCarOn_Some|].
  apply (spawnCar_granted _ _ _ _ _ _ Hf Hl).
Qed.

Lemma spawnCar_rearmost_below_one_witness :
  lastCarOn 0 (cars (@stackedShortRoad Q _)) = Some enteredCar /\
  fst (spawnCar "S" "green" None (@stackedShortRoad Q _)) = false.
Proof.
  pose proof (spawnCar_rearmost_below_one "S" "green" None stackedShortRoad 0
                shortRoad eq_refl eq_refl) as (_ & _ & Hiff).
  split; [reflexivity|].
  apply not_true_iff_false. intros Ht. apply Hiff in Ht.
  vm_compute in Ht. apply Ht. reflexivity.
Defined.

(** ** The car-following loop, for every carrier *)

Section Following.
Context {N : Type} `{Number N}.

Lemma insertCar_perm (cs : list (Car N)) (a : nat) (l : list nat) :
  Permutation (a :: l) (insertCar cs a l).
Proof.
  induction l as [|b l IH]; simpl; [reflexivity|].
  destruct (after cs a b); [|reflexivity].
  rewrite perm_swap. apply perm_skip, IH.
Qed.

Lemma sortCars_perm (cs : list (Car N)) (l : list nat) :
  Permutation l (sortCars cs l).
Proof.
  induction l as [|a l IH]; simpl; [reflexivity|].
  rewrite <- insertCar_perm. apply perm_skip, IH.
Qed.

Lemma roadCarsOf_In (rIdx : nat) (cs : list (Car N)) (i : nat) :
  In i (roadCarsOf rIdx cs) <-> exists c, cs !! i = Some c /\ roadIndex c = rIdx.
Proof.
  unfold roadCarsOf, onRoad. rewrite filter_In, in_seq. split.
  - intros [_ Hon]. destruct (cs !! i) as [c|]; [|discriminate].
    exists c. split; [reflexivity|]. apply Nat.eqb_eq, Hon.
  - intros (c & Hc & Hr). split.
    + apply lookup_lt_Some in Hc. lia.
    + rewrite Hc. apply Nat.eqb_eq, Hr.
Qed.

Lemma roadCarsOf_NoDup (rIdx : nat) (cs : list (Car N)) :
  List.NoDup (roadCarsOf rIdx cs).
Proof. apply List.NoDup_filter, seq_NoDup. Qed.

Lemma sorted_roadCars_In (rIdx : nat) (cs : list (Car N)) (i : nat) :
  In i (sortCars cs (roadCarsOf rIdx cs)) <->
  exists c, cs !! i = Some c /\ roadIndex c = rIdx.
Proof.
  rewrite <- roadCarsOf_In. split; apply Permutation_in.
  - symmetry. apply sortCars_perm.
  - apply sortCars_perm.
Qed.

Lemma sorted_roadCars_NoDup (rIdx : nat) (cs : list (Car N)) :
  List.NoDup (sortCars cs (roadCarsOf rIdx cs)).
Proof.
  eapply Permutation_NoDup; [apply sortCars_perm | apply roadCarsOf_NoDup].
Qed.

Lemma followCar_roadIndex (road : Road N) (ahead : option (Car N)) (car : Car N) :
  roadIndex (followCar road ahead car) = roadIndex car /\
  color (followCar road ahead car) = color car /\
  speed (followCar road ahead car) = speed car.
Proof.
  unfold followCar. destruct ahead as [a|]; [|auto].
  destruct (nltb _ _); [auto|]. destruct (nltb _ _); auto.
Qed.

Lemma followLoop_length (road : Road N) (l : list nat) :
  forall prev cs, length (followLoop road prev l cs) = length cs.
Proof.
  induction l as [|i l IH]; intros prev cs; simpl; [reflexivity|].
  rewrite IH. destruct (cs !! i); [apply length_insert | reflexivity].
Qed.

Lemma followLoop_other (road : Road N) (l : list nat) :
  forall prev cs j, ~ In j l -> followLoop road prev l cs !! j = cs !! j.
Proof.
  induction l as [|i l IH]; intros prev cs j Hj; simpl; [reflexivity|].
  rewrite IH by (intros Hin; apply Hj; right; exact Hin).
  destruct (cs !! i); [|reflexivity].
  apply list_lookup_insert_ne. intros ->. apply Hj. left. reflexivity.
Qed.

(** Every vehicle of the processing order is rewritten once, from its value
    before the loop and from the value the loop has left in the vehicle
    ahead of it. *)
Lemma followLoop_spec (road : Road N) (l : list nat) :
  forall prev cs, List.NoDup l ->
    (forall p, prev = Some p -> ~ In p l) ->
    forall k i car, l !! k = Some i -> cs !! i = Some car ->
      followLoop road prev l cs !! i =
        Some (followCar road
                (match k with
                 | O => prev ≫= ((followLoop road prev l cs) !!.)
                 | S k' => l !! k' ≫= ((followLoop road prev l cs) !!.)
                 end) car).
Proof.
  induction l as [|i0 l IH]; intros prev cs Hnd Hprev k i car Hk Hi;
    [discriminate|].
  apply List.NoDup_cons_iff in Hnd as [Hi0 Hnd]. simpl.
  destruct k as [|k]; simpl in Hk.
  - injection Hk as ->. rewrite Hi.
    rewrite (followLoop_other road l (Some i)) by exact Hi0.
    rewrite list_lookup_insert_eq by (eapply lookup_lt_Some; exact Hi).
    do 2 f_equal. destruct prev as [p|]; simpl; [|reflexivity].
    rewrite (followLoop_other road l (Some i)).
    + symmetry. apply list_lookup_insert_ne. intros ->. apply (Hprev p eq_refl).
      left. reflexivity.
    + intros Hin. apply (Hprev p eq_refl). right. exact Hin.
  - assert (Hne : i0 <> i).
    { intros ->. apply Hi0. apply list_elem_of_In.
      apply list_elem_of_lookup. eauto. }
    set (cs1 := match cs !! i0 with
                | Some car0 => <[i0 := followCar road (prev ≫= (cs !!.)) car0]> cs
                | None => cs
                end).
    assert (Hi1 : cs1 !! i = Some car).
    { unfold cs1. destruct (cs !! i0); [|exact Hi].
      rewrite list_lookup_insert_ne by exact Hne. exact Hi. }
    rewrite (IH (Some i0) cs1 Hnd) with (k := k) (car := car); auto.
    + do 2 f_equal. destruct k; reflexivity.
    + intros p [= <-]. exact Hi0.
Qed.

(** The same for one road of the physics pass: the vehicle at place [k] of
    the order ends as [followCar] of its value before the pass and of the
    final value of the vehicle at place [k-1]. *)
Lemma followRoad_spec (road : Road N) (rIdx : nat) (cs : list (Car N)) :
  forall k i car,
    sortCars cs (roadCarsOf rIdx cs) !! k = Some i -> cs !! i = Some car ->
    followRoad road rIdx cs !! i =
      Some (followCar road
              (aheadAt (sortCars cs (roadCarsOf rIdx cs)) (followRoad road rIdx cs) k)
              car).
Proof.
  intros k i car Hk Hi. unfold followRoad.
  rewrite (followLoop_spec road _ None cs (sorted_roadCars_NoDup rIdx cs))
    with (k := k) (car := car); auto; discriminate.
Qed.

Lemma followRoad_other (road : Road N) (rIdx : nat) (cs : list (Car N)) (j : nat) (c : Car N) :
  cs !! j = Some c -> roadIndex c <> rIdx -> followRoad road rIdx cs !! j = Some c.
Proof.
  intros Hj Hr. unfold followRoad. rewrite followLoop_other; [exact Hj|].
  rewrite sorted_roadCars_In. intros (c' & Hc' & Hr'). congruence.
Qed.

End Following.

(** ** Car following on the rationals *)

Section ExactFollowing.
Local Open Scope Q_scope.

Lemma after_lt (cs : list (Car Q)) (a b : nat) :
  after cs a b = true <->
  exists ca cb, cs !! a = Some ca /\ cs !! b = Some cb /\ progress ca < progress cb.
Proof.
  unfold after. destruct (cs !! a) as [ca|], (cs !! b) as [cb|]; simpl.
  - rewrite Qltb_lt. split.
    + intros Hlt. exists ca, cb. repeat split; auto. lra.
    + intros (ca' & cb' & [= <-] & [= <-] & Hlt). lra.
  - split; [discriminate|]. intros (? & ? & _ & [=] & _).
  - split; [discriminate|]. intros (? & ? & [=] & _).
  - split; [discriminate|]. intros (? & ? & [=] & _).
Qed.

Lemma after_asym (cs : list (Car Q)) (a b : nat) :
  after cs a b = true -> after cs b a = false.
Proof.
  intros Hab. apply not_true_iff_false. intros Hba.
  apply after_lt in Hab as (ca & cb & Ha & Hb & Hlt).
  apply after_lt in Hba as (cb' & ca' & Hb' & Ha' & Hlt').
  rewrite Ha in Ha'. rewrite Hb in Hb'. injection Ha' as <-. injection Hb' as <-.
  lra.
Qed.

Lemma insertCar_sorted (cs : list (Car Q)) (a : nat) (l : list nat) :
  Sorted (fun x y => after cs x y = false) l ->
  Sorted (fun x y => after cs x y = false) (insertCar cs a l).
Proof.
  induction l as [|b l IH]; intros Hs; simpl.
  - repeat constructor.
  - destruct (after cs a b) eqn:Hab.
    + apply Sorted_inv in Hs as [Hs Hhd]. constructor; [apply IH, Hs|].
      destruct l as [|c l]; simpl.
      * constructor. apply after_asym, Hab.
      * destruct (after cs a c).
        -- constructor. inversion Hhd; assumption.
        -- constructor. apply after_asym, Hab.
    + constructor; [exact Hs|]. constructor. exact Hab.
Qed.

Lemma sortCars_sorted (cs : list (Car Q)) (l : list nat) :
  Sorted (fun x y => after cs x y = false) (sortCars cs l).
Proof.
  induction l as [|a l IH]; simpl; [constructor|]. apply insertCar_sorted, IH.
Qed.

Lemma sorted_adjacent (R : nat -> nat -> Prop) (l : list nat) :
  Sorted R l -> forall k a b, l !! k = Some a -> l !! S k = Some b -> R a b.
Proof.
  induction 1 as [|x l Hs IH Hhd]; intros k a b Ha Hb; [discriminate|].
  destruct k as [|k]; simpl in *.
  - injection Ha as <-. destruct l as [|y l]; [discriminate|].
    injection Hb as <-. inversion Hhd; assumption.
  - eapply IH; eauto.
Qed.

Lemma sortCars_descending (cs : list (Car Q)) (l : list nat) :
  descending cs (sortCars cs l).
Proof.
  intros k a b ca cb Ha Hb Hca Hcb.
  pose proof (sorted_adjacent _ _ (sortCars_sorted cs l) k a b Ha Hb) as Hab.
  simpl in Hab. unfold after in Hab. rewrite Hca, Hcb in Hab.
  qnum. apply Qltb_ge in Hab. lra.
Qed.


End ExactFollowing.

(** ** The transition pass, for every carrier *)

Section Transition.
Context {N : Type} `{Number N}.



End Transition.

(** ** Whole passes, for every carrier *)

Section Passes.
Context {N : Type} `{Number N}.

Lemma followRoad_length (road : Road N) (rIdx : nat) (cs : list (Car N)) :
  length (followRoad road rIdx cs) = length cs.
Proof. apply followLoop_length. Qed.

(** A pass over one road keeps every vehicle in its place, on its road,
    with its colour and speed, and does not touch the other roads. *)
Lemma followRoad_preserves (road : Road N) (rIdx : nat) (cs : list (Car N))
    (j : nat) (c : Car N) :
  cs !! j = Some c ->
  exists c', followRoad road rIdx cs !! j = Some c' /\
    roadIndex c' = roadIndex c /\ color c' = color c /\ speed c' = speed c /\
    (roadIndex c <> rIdx -> c' = c).
Proof.
  intros Hj. destruct (Nat.eq_dec (roadIndex c) rIdx) as [Hr|Hr].
  - assert (Hin : In j (sortCars cs (roadCarsOf rIdx cs)))
      by (apply sorted_roadCars_In; eauto).
    apply list_elem_of_In, list_elem_of_lookup in Hin as [k Hk].
    rewrite (followRoad_spec road rIdx cs k j c Hk Hj).
    eexists. split; [reflexivity|].
    destruct (followCar_roadIndex road
                (aheadAt (sortCars cs (roadCarsOf rIdx cs)) (followRoad road rIdx cs) k) c)
      as (H1 & H2 & H3).
    repeat split; auto. intros Hne. contradiction.
  - exists c. rewrite (followRoad_other road rIdx cs j c Hj Hr). auto.
Qed.

Lemma followRoad_reflects (road : Road N) (rIdx : nat) (cs : list (Car N))
    (j : nat) (c' : Car N) :
  followRoad road rIdx cs !! j = Some c' ->
  exists c, cs !! j = Some c /\ roadIndex c' = roadIndex c /\
    (roadIndex c <> rIdx -> c' = c).
Proof.
  intros Hj. pose proof (lookup_lt_Some _ _ _ Hj) as Hlt.
  rewrite followRoad_length in Hlt.
  destruct (lookup_lt_is_Some_2 _ _ Hlt) as [c Hc].
  destruct (followRoad_preserves road rIdx cs j c Hc) as (c2 & Hc2 & Hr & _ & _ & Hsame).
  rewrite Hj in Hc2. injection Hc2 as <-. eauto.
Qed.

Lemma physicsFrom_length (rs : list (Road N)) :
  forall k cs, length (physicsFrom k rs cs) = length cs.
Proof.
  induction rs as [|road rs IH]; intros k cs; simpl; [reflexivity|].
  rewrite IH. apply followRoad_length.
Qed.

Lemma physicsFrom_preserves (rs : list (Road N)) :
  forall k cs j c, cs !! j = Some c ->
    exists c', physicsFrom k rs cs !! j = Some c' /\
      roadIndex c' = roadIndex c /\
      ((roadIndex c < k)%nat -> c' = c).
Proof.
  induction rs as [|road rs IH]; intros k cs j c Hj; simpl; [eauto|].
  destruct (followRoad_preserves road k cs j c Hj) as (c1 & Hc1 & Hr1 & _ & _ & Hsame1).
  destruct (IH (S k) _ j c1 Hc1) as (c2 & Hc2 & Hr2 & Hsame2).
  exists c2. split; [exact Hc2|]. split; [congruence|].
  intros Hlt. rewrite Hsame2 by lia. apply Hsame1. lia.
Qed.



Lemma take_delete_here {A : Type} (l : list A) :
  forall m, take m (delete m l) = take m l.
Proof.
  induction l as [|x l IH]; intros [|m]; simpl; try reflexivity.
  f_equal. apply IH.
Qed.

Lemma drop_delete_here {A : Type} (l : list A) :
  forall m, drop m (delete m l) = drop (S m) l.
Proof.
  induction l as [|x l IH]; intros [|m]; simpl; auto.
Qed.

(** The transition pass without a router: among the positions [0 .. n-1]
    the finished vehicles are removed and the others keep their order. *)
Lemma transitionLoop_noRouter (n : nat) :
  forall e : Engine N, wellFormed e -> (n <= length (cars e))%nat ->
    transitionLoop None n e =
      Some (mkEngine (roads e)
              (List.filter stillMoving (take n (cars e)) ++ drop n (cars e))).
Proof.
  induction n as [|m IH]; intros e Hwf Hn.
  - destruct e. reflexivity.
  - destruct (lookup_lt_is_Some_2 (cars e) m) as [c Hc]; [lia|].
    destruct (Hwf m c Hc) as [road Hroad].
    cbn [transitionLoop]. unfold transitionAt. rewrite Hc, Hroad.
    rewrite (take_S_r _ _ _ Hc), List.filter_app. cbn [List.filter].
    unfold stillMoving at 2. destruct (ngeb (progress c) (nlit 1)) eqn:Hp; cbn [negb].
    + rewrite IH.
      * unfold splice. cbn [roads cars].
        rewrite take_delete_here, drop_delete_here, app_nil_r. reflexivity.
      * intros j c' Hj. unfold splice in *. cbn [roads cars] in *.
        rewrite list_lookup_delete in Hj. eapply Hwf; eauto.
      * unfold splice. cbn [cars]. rewrite length_delete by eauto. lia.
    + rewrite IH by (auto; lia).
      rewrite (drop_S _ _ _ Hc), <- app_assoc. reflexivity.
Qed.

Lemma transition_pass_noRouter (e : Engine N) :
  wellFormed e ->
  transitionLoop None (length (cars e)) e =
    Some (mkEngine (roads e) (List.filter stillMoving (cars e))).
Proof.
  intros Hwf. rewrite (transitionLoop_noRouter _ e Hwf (le_n _)).
  rewrite take_ge, drop_all, app_nil_r by lia. reflexivity.
Qed.

End Passes.

(** ** The vehicle at the head of a road *)

Section Leader.
Context {N : Type} `{Number N}.

Lemma filter_seq_head (f : nat -> bool) (i : nat) :
  forall n a, (a <= i < a + n)%nat -> f i = true ->
    (forall j, (a <= j < i)%nat -> f j = false) ->
    exists rest, List.filter f (seq a n) = i :: rest /\
      forall b, In b rest -> f b = true.
Proof.
  induction n as [|n IH]; intros a Hi Hf Hbefore; [lia|]. simpl.
  destruct (Nat.eq_dec a i) as [->|Hne].
  - rewrite Hf. eexists. split; [reflexivity|].
    intros b Hb. apply filter_In in Hb. tauto.
  - rewrite (Hbefore a) by lia. apply IH; [lia|exact Hf|].
    intros j Hj. apply Hbefore. lia.
Qed.

Lemma sortCars_head (cs : list (Car N)) (i : nat) (rest : list nat) :
  (forall b, In b rest -> after cs i b = false) ->
  exists rest', sortCars cs (i :: rest) = i :: rest'.
Proof.
  intros Hrest. simpl. destruct (sortCars cs rest) as [|b l'] eqn:Hs; simpl.
  - eauto.
  - rewrite Hrest; [eauto|].
    apply (Permutation_in b (Permutation_sym (sortCars_perm cs rest))).
    rewrite Hs. left. reflexivity.
Qed.

(** A vehicle that comes first in the collection among the vehicles of its
    road, and that no vehicle of the road has to precede, is processed
    first and has no vehicle ahead. *)
Lemma followRoad_first (road : Road N) (rIdx : nat) (cs : list (Car N))
    (i : nat) (car : Car N) :
  cs !! i = Some car -> roadIndex car = rIdx ->
  (forall j c, cs !! j = Some c -> roadIndex c = rIdx ->
     (i <= j)%nat /\ after cs i j = false) ->
  followRoad road rIdx cs !! i = Some (followCar road None car).
Proof.
  intros Hi Hr Hfirst.
  destruct (filter_seq_head (onRoad rIdx cs) i (length cs) 0) as (rest & Hrest & Hon).
  - split; [lia|]. apply lookup_lt_Some in Hi. lia.
  - unfold onRoad. rewrite Hi. apply Nat.eqb_eq, Hr.
  - intros j Hj. unfold onRoad. destruct (cs !! j) as [c|] eqn:Hc; [|reflexivity].
    apply Nat.eqb_neq. intros Hrc. destruct (Hfirst j c Hc Hrc). lia.
  - destruct (sortCars_head cs i rest) as (rest' & Hsort).
    + intros b Hb. specialize (Hon b Hb). unfold onRoad in Hon.
      destruct (cs !! b) as [c|] eqn:Hc; [|discriminate].
      apply Nat.eqb_eq in Hon. apply (Hfirst b c Hc Hon).
    + apply (followRoad_spec road rIdx cs 0 i car); [|exact Hi].
      unfold roadCarsOf. rewrite Hrest, Hsort. reflexivity.
Qed.

Lemma physicsFrom_first (road : Road N) (rIdx i : nat) (car : Car N) (rs : list (Road N)) :
  forall k cs, (k <= rIdx)%nat -> rs !! (rIdx - k)%nat = Some road ->
    cs !! i = Some car -> roadIndex car = rIdx ->
    (forall j c, cs !! j = Some c -> roadIndex c = rIdx ->
       (i <= j)%nat /\ after cs i j = false) ->
    physicsFrom k rs cs !! i = Some (followCar road None car).
Proof.
  induction rs as [|road0 rs IH]; intros k cs Hk Hroad Hi Hr Hfirst;
    [discriminate|]. simpl.
  destruct (Nat.eq_dec k rIdx) as [->|Hne].
  - rewrite Nat.sub_diag in Hroad. injection Hroad as ->.
    pose proof (followRoad_first road rIdx cs i car Hi Hr Hfirst) as Hdone.
    destruct (physicsFrom_preserves rs (S rIdx) _ i _ Hdone) as (c2 & Hc2 & _ & Hsame).
    rewrite Hc2, Hsame; [reflexivity|].
    destruct (followCar_roadIndex road None car) as (-> & _). lia.
  - assert (Hkeep : forall j c, roadIndex c = rIdx ->
              (followRoad road0 k cs !! j = Some c <-> cs !! j = Some c)).
    { intros j c Hc. split; intros Hj.
      - destruct (followRoad_reflects road0 k cs j c Hj) as (c0 & Hc0 & Hr0 & Hsame).
        rewrite Hsame; [exact Hc0|congruence].
      - destruct (followRoad_preserves road0 k cs j c Hj) as (c1 & Hc1 & _ & _ & _ & Hsame).
        rewrite Hsame in Hc1; [exact Hc1|congruence]. }
    apply IH; [lia| |apply Hkeep; auto|exact Hr|].
    + replace (rIdx - k)%nat with (S (rIdx - S k)) in Hroad by lia. exact Hroad.
    + intros j c Hj Hc. apply Hkeep in Hj; [|exact Hc].
      destruct (Hfirst j c Hj Hc) as [Hle Haft]. split; [exact Hle|].
      unfold after in *. rewrite Hi, Hj in Haft.
      rewrite (proj2 (Hkeep i car Hr) Hi), (proj2 (Hkeep j c Hc) Hj). exact Haft.
Qed.

End Leader.

(** C6 as stated fails: on the road of length 400 the follower reaches
    progress >= 1 in frame 12, is refused and parked at progress 1 with
    speed 0, and in frame 13, under the same router that refuses
    everything, ends at progress 0.985; in exact arithmetic and in
    binary64. *)
Lemma refused_vehicle_released_counterexample :
  @parkedThenReleased Q _ /\ @parkedThenReleased float _.
Proof.
  split; do 6 eexists;
    (split; [vm_compute; reflexivity|]);
    (split; [vm_compute; reflexivity|]);
    (split; [vm_compute; reflexivity|]);
    (split; [vm_compute; reflexivity|]);
    (split; [reflexivity|]);
    (split; [reflexivity|]);
    (split; [reflexivity|]);
    (split; [vm_compute; reflexivity|]);
    (split; [reflexivity|]);
    vm_compute; reflexivity.
Qed.


(** ** Routers *)

Section Routers.
Context {N : Type} `{Number N}.


Lemma refuseAll_entersAtStart : entersAtStart (refuseAll : Router N).
Proof.
  intros car rid e. exists []. rewrite app_nil_r. destruct e.
  split; [reflexivity | constructor].
Qed.

(** A call of [spawnCar] keeps the roads and appends at most a vehicle at
    progress 0 on a registered road. *)
Lemma spawnCar_entersAtStart (roadId col : string) (ex : option (Car N)) (e : Engine N) :
  exists extra,
    snd (spawnCar roadId col ex e) = mkEngine (roads e) (cars e ++ extra) /\
    Forall (fun c => is_Some (roads e !! roadIndex c) /\ progress c = nlit 0) extra.
Proof.
  destruct (spawnCar_cases roadId col ex e) as [-> | (rIdx & Hf & ->)]; cbn [snd].
  - exists []. rewrite app_nil_r. destruct e. split; [reflexivity | constructor].
  - destruct (findIndex_lookup _ _ _ Hf) as (road & Hroad & _).
    eexists. split; [reflexivity|]. constructor; [|constructor].
    cbn. eauto.
Qed.


Lemma feederRouter_entersAtStart : entersAtStart (@feederRouter N _).
Proof.
  intros car rid e. unfold feederRouter.
  destruct (String.eqb rid "R"); [apply spawnCar_entersAtStart|].
  exists []. cbn [snd]. rewrite app_nil_r. destruct e.
  split; [reflexivity | constructor].
Qed.

End Routers.

(** C4. [updateSpeed] is called by the module scripts and is no member of
    the class: it is none of the fields of an instance, none of the methods
    of the class body ([resize], [addRoad], [spawnCar], [animate]) and none
    of the members inherited from [Object.prototype], so the call raises
    instead of setting a speed factor. *)
Theorem updateSpeed_is_not_a_member :
  In "updateSpeed" calledMethods /\
  hasMember "updateSpeed" = false /\
  hasMember "addRoad" = true /\ hasMember "spawnCar" = true.
Proof.
  split; [right; right; left; reflexivity|]. repeat split.
Qed.

(** * Further properties of the engine *)

(** ** The road registry *)

Section Registry.
Context {N : Type} `{Number N}.

Lemma findIndexFrom_app_found (roadId : string) (rs rs' : list (Road N)) :
  forall k i, findIndexFrom roadId k rs = Some i ->
    findIndexFrom roadId k (rs ++ rs') = Some i.
Proof.
  induction rs as [|r rs IH]; intros k i Hf; simpl in *; [discriminate|].
  destruct (String.eqb (id r) roadId); [exact Hf | apply IH, Hf].
Qed.

Lemma findIndexFrom_app_fresh (roadId : string) (rs rs' : list (Road N)) :
  forall k, findIndexFrom roadId k rs = None ->
    findIndexFrom roadId k (rs ++ rs') = findIndexFrom roadId (k + length rs) rs'.
Proof.
  induction rs as [|r rs IH]; intros k Hf; simpl in *.
  - rewrite Nat.add_0_r. reflexivity.
  - destruct (String.eqb (id r) roadId); [discriminate|].
    rewrite (IH _ Hf). f_equal. lia.
Qed.

Lemma scan_no_vehicle (rIdx : nat) (cs : list (Car N)) :
  forall st, (forall c, In c cs -> roadIndex c <> rIdx) ->
    fold_left (scanStep rIdx) cs st = st.
Proof.
  induction cs as [|c cs IH]; intros st Hno; simpl; [reflexivity|].
  rewrite IH by (intros c' Hc'; apply Hno; right; exact Hc').
  unfold scanStep. replace (Nat.eqb (roadIndex c) rIdx) with false; [reflexivity|].
  symmetry. apply Nat.eqb_neq, Hno. left. reflexivity.
Qed.

Lemma wellFormed_bound (e : Engine N) (c : Car N) :
  wellFormed e -> In c (cars e) -> (roadIndex c < length (roads e))%nat.
Proof.
  intros Hwf Hin. apply list_elem_of_In, list_elem_of_lookup in Hin as [j Hj].
  apply lookup_lt_is_Some_1. eapply Hwf, Hj.
Qed.

End Registry.

(** X1. A road registered under an id that is not yet in use is found
    under that id at the next free index, with the geometry, colour, width
    and speed factor it was given, and it admits a vehicle at once: on a
    well-formed engine the next [spawnCar] on that id succeeds. *)
Theorem addRoad_fresh_id {N : Type} `{Number N} (rid : string)
    (ax ay bx by_ : N) (col : string) (w v l a : N) (ccol : string)
    (e : Engine N) :
  wellFormed e ->
  findIndex rid (roads e) = None ->
  let e' := addRoad rid ax ay bx by_ col w v l a e in
  let k := length (roads e) in
  findIndex rid (roads e') = Some k /\
  roads e' !! k =
    Some (mkRoad rid ax ay bx by_ (nsub bx ax) (nsub by_ ay) l a col w v) /\
  cars e' = cars e /\
  spawnCar rid ccol None e' =
    (true, mkEngine (roads e') (cars e ++ [mkCar k (nlit 0) ccol (nlit 0)])).
Proof.
  intros Hwf Hfresh e' k.
  assert (Hfind : findIndex rid (roads e') = Some k).
  { unfold findIndex, e', addRoad. cbn [roads].
    rewrite (findIndexFrom_app_fresh _ _ _ _ Hfresh). simpl.
    rewrite String.eqb_refl. reflexivity. }
  assert (Hroad : roads e' !! k =
            Some (mkRoad rid ax ay bx by_ (nsub bx ax) (nsub by_ ay) l a col w v)).
  { unfold e', addRoad, k. cbn [roads].
    rewrite lookup_app_r by lia. rewrite Nat.sub_diag. reflexivity. }
  split; [exact Hfind|]. split; [exact Hroad|]. split; [reflexivity|].
  rewrite (spawnCar_found _ _ _ _ _ _ Hfind Hroad).
  unfold lastCarOn, scan. rewrite scan_no_vehicle; [reflexivity|].
  intros c Hc. pose proof (wellFormed_bound e c Hwf Hc). unfold k. lia.
Qed.

Lemma addRoad_fresh_id_witness :
  spawnCar "T" "red" None
    (addRoad "T" (nlit 0) (nlit 0) (nlit 90) (nlit 0) "grey" (nlit 30) (nlit 1)
       (nlit 90) (nlit 0) (@stackedShortRoad float _)) =
  (true,
   mkEngine
     (roads (addRoad "T" (nlit 0) (nlit 0) (nlit 90) (nlit 0) "grey" (nlit 30)
               (nlit 1) (nlit 90) (nlit 0) (@stackedShortRoad float _)))
     (cars stackedShortRoad ++ [mkCar 1 (nlit 0) "red" (nlit 0)])).
Proof.
  assert (Hwf : wellFormed (@stackedShortRoad float _)).
  { intros [|[|j]] c Hj; simpl in Hj; try discriminate;
      injection Hj as <-; eexists; reflexivity. }
  exact (proj2 (proj2 (proj2
    (addRoad_fresh_id "T" (nlit 0) (nlit 0) (nlit 90) (nlit 0) "grey" (nlit 30)
       (nlit 1) (nlit 90) (nlit 0) "red" stackedShortRoad Hwf eq_refl)))).
Defined.

(** X2. Registering a road never changes what an id already resolves to:
    every id found before is found at the same index, with the same road,
    afterwards.  A road added under an id in use is therefore shadowed by
    the older one: no [spawnCar] reaches it. *)
Theorem addRoad_keeps_resolution {N : Type} `{Number N} (rid roadId : string)
    (ax ay bx by_ : N) (col : string) (w v l a : N) (e : Engine N) (k : nat) :
  findIndex roadId (roads e) = Some k ->
  let e' := addRoad rid ax ay bx by_ col w v l a e in
  findIndex roadId (roads e') = Some k /\
  roads e' !! k = roads e !! k /\
  (k < length (roads e))%nat /\
  forall ccol ex, fst (spawnCar roadId ccol ex e') = fst (spawnCar roadId ccol ex e).
Proof.
  intros Hf e'.
  destruct (findIndex_lookup _ _ _ Hf) as (road & Hroad & _).
  pose proof (lookup_lt_Some _ _ _ Hroad) as Hk.
  assert (Hf' : findIndex roadId (roads e') = Some k)
    by (apply findIndexFrom_app_found, Hf).
  assert (Hroad' : roads e' !! k = roads e !! k)
    by (unfold e', addRoad; cbn [roads]; apply lookup_app_l, Hk).
  repeat split; auto.
  intros ccol ex. rewrite Hroad in Hroad'.
  rewrite (spawnCar_found _ _ _ _ _ _ Hf' Hroad'), (spawnCar_found _ _ _ _ _ _ Hf Hroad).
  cbn [cars e' addRoad]. destruct (entryBlocked road _); reflexivity.
Qed.

Lemma addRoad_keeps_resolution_witness :
  findIndex "S"
    (roads (addRoad "S" (nlit 0) (nlit 0) (nlit 900) (nlit 0) "grey" (nlit 30)
              (nlit 1) (nlit 900) (nlit 0) (@parkedAlone float _))) = Some 0%nat.
Proof.
  exact (proj1 (addRoad_keeps_resolution "S" "S" (nlit 0) (nlit 0) (nlit 900)
                  (nlit 0) "grey" (nlit 30) (nlit 1) (nlit 900) (nlit 0)
                  (@parkedAlone float _) 0 eq_refl)).
Defined.

(** ** Admission *)

Section AdmissionMore.
Context {N : Type} `{Number N}.

Lemma findIndexFrom_first (roadId : string) (rs : list (Road N)) :
  forall k i, findIndexFrom roadId k rs = Some i ->
    forall j r, (j < i - k)%nat -> rs !! j = Some r -> id r <> roadId.
Proof.
  induction rs as [|r0 rs IH]; intros k i Hf j r Hj Hr; simpl in Hf; [discriminate|].
  destruct (String.eqb (id r0) roadId) eqn:E.
  - injection Hf as <-. lia.
  - destruct j as [|j]; simpl in Hr.
    + injection Hr as <-. apply String.eqb_neq, E.
    + destruct (findIndexFrom_lookup _ _ _ _ Hf) as (_ & Hle & _).
      apply (IH (S k) i Hf j r); [lia | exact Hr].
Qed.

Lemma wellFormed_app (e : Engine N) (c : Car N) :
  wellFormed e -> is_Some (roads e !! roadIndex c) ->
  wellFormed (mkEngine (roads e) (cars e ++ [c])).
Proof.
  intros Hwf Hc j c' Hj. cbn [roads cars] in *.
  apply lookup_app_Some in Hj as [Hj | [_ Hj]]; [eapply Hwf, Hj|].
  destruct (j - length (cars e))%nat; simpl in Hj; [|discriminate].
  injection Hj as <-. exact Hc.
Qed.

End AdmissionMore.

(** X3. [spawnCar] keeps the engine well formed and never touches the
    roads; a vehicle it admits is appended on the first road registered
    under the requested id. *)
Theorem spawnCar_wellFormed {N : Type} `{Number N} (roadId col : string)
    (ex : option (Car N)) (e : Engine N) :
  wellFormed e ->
  wellFormed (snd (spawnCar roadId col ex e)) /\
  roads (snd (spawnCar roadId col ex e)) = roads e /\
  (fst (spawnCar roadId col ex e) = true ->
   exists rIdx road,
     roads e !! rIdx = Some road /\ id road = roadId /\
     (forall j r, (j < rIdx)%nat -> roads e !! j = Some r -> id r <> roadId) /\
     cars (snd (spawnCar roadId col ex e)) = cars e ++ [spawned rIdx col ex]).
Proof.
  intros Hwf.
  destruct (spawnCar_cases roadId col ex e) as [-> | (rIdx & Hf & ->)]; cbn [fst snd].
  - split; [exact Hwf|]. split; [reflexivity|discriminate].
  - destruct (findIndex_lookup _ _ _ Hf) as (road & Hroad & Hid).
    split; [apply wellFormed_app; [exact Hwf | cbn; eauto]|].
    split; [reflexivity|]. intros _. exists rIdx, road.
    repeat split; auto.
    intros j r Hj Hr. apply (findIndexFrom_first _ _ _ _ Hf j r); [lia | exact Hr].
Qed.

Lemma spawnCar_wellFormed_witness :
  wellFormed (snd (spawnCar "S" "blue" None (@parkedAlone float _))).
Proof.
  assert (Hwf : wellFormed (@parkedAlone float _)).
  { intros [|j] c Hj; simpl in Hj; [|discriminate].
    injection Hj as <-. eexists. reflexivity. }
  exact (proj1 (spawnCar_wellFormed "S" "blue" None parkedAlone Hwf)).
Defined.

(** X4. On a road of non-negative length entry is refused whenever any
    vehicle of the road with progress below 1 stands nearer to the start
    than carLength + minGap, whichever vehicle the scan selects; so a
    second [spawnCar] on the same id right after a successful one is
    always refused. *)
Theorem spawnCar_entry_zone (roadId : string) (e : Engine Q) (rIdx : nat)
    (road : Road Q) :
  findIndex roadId (roads e) = Some rIdx ->
  roads e !! rIdx = Some road ->
  (0 <= len road)%Q ->
  (forall c col ex,
     In c (cars e) -> roadIndex c = rIdx -> (progress c < 1)%Q ->
     (progress c * len road < carLength + minGap)%Q ->
     spawnCar roadId col ex e = (false, e)) /\
  (forall col ex col' ex',
     fst (spawnCar roadId col ex e) = true ->
     spawnCar roadId col' ex' (snd (spawnCar roadId col ex e)) =
       (false, snd (spawnCar roadId col ex e))).
Proof.
  intros Hf Hroad Hlen.
  assert (Hzone : forall (e0 : Engine Q) c col ex,
            findIndex roadId (roads e0) = Some rIdx ->
            roads e0 !! rIdx = Some road ->
            In c (cars e0) -> roadIndex c = rIdx -> (progress c < 1)%Q ->
            (progress c * len road < carLength + minGap)%Q ->
            spawnCar roadId col ex e0 = (false, e0)).
  { intros e0 c col ex Hf0 Hroad0 Hin Hr Hp Hd.
    rewrite (spawnCar_found _ _ _ _ _ _ Hf0 Hroad0). unfold entryBlocked.
    destruct (lastCarOn rIdx (cars e0)) as [l|] eqn:Hlast.
    - apply lastCarOn_Some in Hlast as (_ & _ & _ & Hmin).
      specialize (Hmin c Hin Hr).
      assert (Hle : (progress l * len road <= progress c * len road)%Q)
        by (apply Qmult_le_compat_r; assumption).
      replace (nltb _ _) with true; [reflexivity|].
      symmetry. qnum. apply Qltb_lt. unfold carLength, minGap in *. qnum. lra.
    - exfalso. pose proof (proj1 (lastCarOn_None _ _) Hlast c Hin Hr). lra. }
  split; [intros c col ex; apply Hzone; assumption|].
  intros col ex col' ex' Hok.
  rewrite (spawnCar_found _ _ _ _ _ _ Hf Hroad) in *.
  destruct (entryBlocked road _); [discriminate|]. cbn [snd].
  apply (Hzone _ (spawned rIdx col ex)); auto.
  - cbn [cars]. apply in_app_iff. right. left. reflexivity.
  - cbn. lra.
  - cbn. unfold carLength, minGap. qnum. lra.
Qed.

Lemma spawnCar_entry_zone_witness :
  spawnCar "S" "green" None (snd (spawnCar "S" "blue" None (@parkedAlone Q _))) =
  (false, snd (spawnCar "S" "blue" None (@parkedAlone Q _))).
Proof.
  assert (Hlen : (0 <= len (@shortRoad Q _))%Q) by (simpl; lra).
  exact (proj2 (spawnCar_entry_zone "S" parkedAlone 0 shortRoad eq_refl eq_refl Hlen)
           "blue" None "green" None eq_refl).
Defined.

(** ** Frames *)

Section Frames.
Context {N : Type} `{Number N}.

Lemma physicsFrom_fields (rs : list (Road N)) :
  forall k cs j c, cs !! j = Some c ->
    exists c', physicsFrom k rs cs !! j = Some c' /\
      roadIndex c' = roadIndex c /\ color c' = color c /\ speed c' = speed c /\
      ((roadIndex c < k \/ k + length rs <= roadIndex c)%nat -> c' = c).
Proof.
  induction rs as [|road rs IH]; intros k cs j c Hj; simpl; [eauto 6|].
  destruct (followRoad_preserves road k cs j c Hj) as (c1 & Hc1 & Hr1 & Hcol1 & Hs1 & Hsame1).
  destruct (IH (S k) _ j c1 Hc1) as (c2 & Hc2 & Hr2 & Hcol2 & Hs2 & Hsame2).
  exists c2. split; [exact Hc2|]. repeat split; try congruence.
  intros Hout. rewrite Hsame2 by lia. apply Hsame1. lia.
Qed.

Lemma physics_keeps_wellFormed (e : Engine N) :
  wellFormed e -> wellFormed (physics e).
Proof.
  intros Hwf j c' Hj. cbn [physics roads cars] in *.
  pose proof (lookup_lt_Some _ _ _ Hj) as Hlt. rewrite physicsFrom_length in Hlt.
  destruct (lookup_lt_is_Some_2 _ _ Hlt) as [c Hc].
  destruct (physicsFrom_fields (roads e) 0 _ j c Hc) as (c2 & Hc2 & Hr & _).
  rewrite Hj in Hc2. injection Hc2 as <-. rewrite Hr. eapply Hwf; eauto.
Qed.

Lemma physics_In (e : Engine N) (c' : Car N) :
  In c' (cars (physics e)) ->
  exists c, In c (cars e) /\ roadIndex c' = roadIndex c /\
    color c' = color c /\ speed c' = speed c.
Proof.
  intros Hin. apply list_elem_of_In, list_elem_of_lookup in Hin as [j Hj].
  cbn [physics cars] in Hj.
  pose proof (lookup_lt_Some _ _ _ Hj) as Hlt. rewrite physicsFrom_length in Hlt.
  destruct (lookup_lt_is_Some_2 _ _ Hlt) as [c Hc].
  destruct (physicsFrom_fields (roads e) 0 _ j c Hc) as (c2 & Hc2 & Hr & Hcol & Hs & _).
  rewrite Hj in Hc2. injection Hc2 as <-. exists c.
  split; [|auto]. apply list_elem_of_In, list_elem_of_lookup. eauto.
Qed.

(** The transition loop under a router carries an invariant of the engine
    from position to position. *)
Lemma transitionLoop_invariant (router : option (Router N)) (Inv : Engine N -> Prop) :
  (forall e i, Inv e -> (i < length (cars e))%nat ->
     exists e', transitionAt router i e = Some e' /\ Inv e' /\
       (i <= length (cars e'))%nat) ->
  forall n e, Inv e -> (n <= length (cars e))%nat ->
    exists e', transitionLoop router n e = Some e' /\ Inv e'.
Proof.
  intros Hstep. induction n as [|i IH]; intros e Hinv Hn; simpl; [eauto|].
  destruct (Hstep e i Hinv ltac:(lia)) as (e1 & -> & Hinv1 & Hi1).
  apply IH; assumption.
Qed.

Lemma wellFormed_delete (e : Engine N) (i : nat) :
  wellFormed e -> wellFormed (splice i e).
Proof.
  intros Hwf j c Hj. unfold splice in *. cbn [roads cars] in *.
  rewrite list_lookup_delete in Hj. eapply Hwf, Hj.
Qed.

Lemma wellFormed_park (e : Engine N) (i : nat) :
  wellFormed e -> wellFormed (park i e).
Proof.
  intros Hwf j c Hj. unfold park in *. cbn [roads cars] in *.
  rewrite list_lookup_alter in Hj. case_decide; [subst j|eapply Hwf, Hj].
  destruct (cars e !! i) as [c0|] eqn:Hc0; [|discriminate].
  injection Hj as <-. cbn. eapply Hwf, Hc0.
Qed.

(** One position of the transition pass under a router that only spawns. *)
Lemma transitionAt_spawnOnly (f : Router N) (P : Car N -> Prop) (e : Engine N) (i : nat) :
  spawnOnly f ->
  (forall c, P c -> forall c', speed c' = speed c -> P c') ->
  (forall c, P (setSpeed (nlit 0) (setProgress (nlit 1) c))) ->
  wellFormed e -> Forall P (cars e) -> (i < length (cars e))%nat ->
  exists e', transitionAt (Some f) i e = Some e' /\
    roads e' = roads e /\ wellFormed e' /\ Forall P (cars e') /\
    (i <= length (cars e') <= length (cars e))%nat.
Proof.
  intros Hf Hspeed Hpark Hwf HP Hi.
  destruct (lookup_lt_is_Some_2 _ _ Hi) as [car Hcar].
  destruct (Hwf i car Hcar) as [road Hroad].
  unfold transitionAt. rewrite Hcar, Hroad.
  destruct (ngeb (progress car) (nlit 1)); [|exists e; repeat split; auto; lia].
  destruct (Hf car (id road) e) as (extra & Hsnd & Hlen & Hfalse & Hextra).
  destruct (f car (id road) e) as [moved e1]. cbn [fst snd] in *. subst e1.
  assert (Hwf1 : wellFormed (mkEngine (roads e) (cars e ++ extra))).
  { intros j c Hj. cbn [roads cars] in *.
    apply lookup_app_Some in Hj as [Hj | [_ Hj]]; [eapply Hwf, Hj|].
    apply Hextra, list_elem_of_In, list_elem_of_lookup. eauto. }
  assert (HP1 : Forall P (cars e ++ extra)).
  { apply Forall_app. split; [exact HP|]. apply List.Forall_forall.
    intros c Hc. destruct (Hextra c Hc) as (_ & _ & Hs).
    apply (Hspeed car); [|exact Hs].
    eapply (proj1 (List.Forall_forall P (cars e)) HP).
    apply list_elem_of_In, list_elem_of_lookup. eauto. }
  destruct moved.
  - eexists. split; [reflexivity|]. split; [reflexivity|].
    split; [apply wellFormed_delete, Hwf1|]. unfold splice. cbn [cars].
    split.
    + rewrite delete_take_drop. apply Forall_app. split.
      * apply Forall_take, HP1.
      * apply Forall_drop, HP1.
    + rewrite length_delete by (apply lookup_lt_is_Some_2; rewrite length_app; lia).
      rewrite length_app. lia.
  - rewrite (Hfalse eq_refl) in *. rewrite app_nil_r in *.
    eexists. split; [reflexivity|]. split; [reflexivity|].
    split; [apply wellFormed_park, Hwf1|]. unfold park. cbn [cars].
    split; [|rewrite length_alter; lia].
    apply List.Forall_forall. intros c Hc.
    apply list_elem_of_In, list_elem_of_lookup in Hc as [j Hj].
    rewrite list_lookup_alter in Hj. case_decide.
    + subst j. destruct (cars e !! i) as [c0|]; [|discriminate].
      injection Hj as <-. apply Hpark.
    + eapply (proj1 (List.Forall_forall P (cars e)) HP1).
      apply list_elem_of_In, list_elem_of_lookup. eauto.
Qed.

Lemma animate_spawnOnly (f : Router N) (P : Car N -> Prop) (e : Engine N) :
  spawnOnly f ->
  (forall c, P c -> forall c', speed c' = speed c -> P c') ->
  (forall c, P (setSpeed (nlit 0) (setProgress (nlit 1) c))) ->
  wellFormed e -> Forall P (cars e) ->
  exists e', animate (Some f) e = Some e' /\
    roads e' = roads e /\ wellFormed e' /\ Forall P (cars e') /\
    (length (cars e') <= length (cars e))%nat.
Proof.
  intros Hf Hspeed Hpark Hwf HP. unfold animate.
  set (L := length (cars e)).
  destruct (transitionLoop_invariant (Some f)
              (fun e0 => roads e0 = roads e /\ wellFormed e0 /\ Forall P (cars e0) /\
                         (length (cars e0) <= L)%nat))
    with (n := length (cars (physics e))) (e := physics e)
    as (e' & He' & Hinv).
  - intros e0 i (Hr0 & Hwf0 & HP0 & HL0) Hi.
    destruct (transitionAt_spawnOnly f P e0 i Hf Hspeed Hpark Hwf0 HP0 Hi)
      as (e1 & He1 & Hr1 & Hwf1 & HP1 & Hlen1).
    exists e1. split; [exact He1|]. split; [|lia].
    split; [congruence|]. split; [exact Hwf1|]. split; [exact HP1|lia].
  - split; [reflexivity|]. split; [apply physics_keeps_wellFormed, Hwf|].
    split.
    + apply List.Forall_forall. intros c' Hc'.
      destruct (physics_In e c' Hc') as (c & Hc & _ & _ & Hs).
      apply (Hspeed c); [|exact Hs].
      apply (proj1 (List.Forall_forall P (cars e)) HP c Hc).
    + unfold L. cbn [physics cars]. rewrite physicsFrom_length. lia.
  - lia.
  - exists e'. tauto.
Qed.

Lemma mod2Router_spawnOnly (m2_shortcut : bool) : spawnOnly (mod2Router m2_shortcut).
Proof.
  assert (Hspawn : forall roadId (car : Car N) e,
            exists extra,
              snd (spawnCar roadId (color car) (Some car) e) =
                mkEngine (roads e) (cars e ++ extra) /\
              (length extra <= 1)%nat /\
              (fst (spawnCar roadId (color car) (Some car) e) = false -> extra = []) /\
              forall c, In c extra ->
                is_Some (roads e !! roadIndex c) /\
                color c = color car /\ speed c = speed car).
  { intros roadId car e.
    destruct (spawnCar_cases roadId (color car) (Some car) e) as [-> | (rIdx & Hf & ->)];
      cbn [fst snd].
    - exists []. rewrite app_nil_r. destruct e.
      split; [reflexivity|]. split; [simpl; lia|]. split; [reflexivity|].
      intros c [].
    - destruct (findIndex_lookup _ _ _ Hf) as (road & Hroad & _).
      eexists. split; [reflexivity|]. split; [simpl; lia|].
      split; [discriminate|]. intros c [<-|[]]. cbn. eauto. }
  intros car rid e. unfold mod2Router.
  destruct (_ || _); [apply Hspawn|].
  destruct (String.eqb rid "Single_Bot").
  - destruct m2_shortcut; apply Hspawn.
  - exists []. cbn [fst snd]. rewrite app_nil_r. destruct e.
    split; [reflexivity|]. split; [simpl; lia|]. split; [reflexivity|].
    intros c [].
Qed.

End Frames.

(** X5. The physics pass writes nothing but [progress]: the roads, the
    number of vehicles and the road, colour and speed of the vehicle at
    every position are as before, and a vehicle whose road index names no
    registered road is not moved at all. *)
Theorem physics_changes_progress_only {N : Type} `{Number N} (e : Engine N) :
  roads (physics e) = roads e /\
  length (cars (physics e)) = length (cars e) /\
  forall j c, cars e !! j = Some c ->
    exists c', cars (physics e) !! j = Some c' /\
      roadIndex c' = roadIndex c /\ color c' = color c /\ speed c' = speed c /\
      ((length (roads e) <= roadIndex c)%nat -> c' = c).
Proof.
  split; [reflexivity|]. split; [apply physicsFrom_length|].
  intros j c Hj.
  destruct (physicsFrom_fields (roads e) 0 (cars e) j c Hj)
    as (c' & Hc' & Hr & Hcol & Hs & Hsame).
  exists c'. split; [exact Hc'|]. split; [exact Hr|]. split; [exact Hcol|].
  split; [exact Hs|]. intros Hout. apply Hsame. right. lia.
Qed.

Section FramesMore.
Context {N : Type} `{Number N}.

Lemma animate_noRouter (e : Engine N) :
  wellFormed e ->
  animate None e =
    Some (mkEngine (roads e) (List.filter stillMoving (cars (physics e)))).
Proof.
  intros Hwf. unfold animate.
  rewrite (transition_pass_noRouter (physics e) (physics_keeps_wellFormed e Hwf)).
  reflexivity.
Qed.

Lemma wellFormed_filter (e : Engine N) (keep : Car N -> bool) :
  wellFormed e -> wellFormed (mkEngine (roads e) (List.filter keep (cars e))).
Proof.
  intros Hwf j c Hj. cbn [roads cars] in *.
  assert (Hin : In c (List.filter keep (cars e)))
    by (apply list_elem_of_In, list_elem_of_lookup; eauto).
  apply filter_In in Hin as [Hin _].
  apply list_elem_of_In, list_elem_of_lookup in Hin as [k Hk]. eapply Hwf, Hk.
Qed.

Lemma addRoad_wellFormed (rid : string) (ax ay bx by_ : N) (col : string)
    (w v l a : N) (e : Engine N) :
  wellFormed e -> wellFormed (addRoad rid ax ay bx by_ col w v l a e).
Proof.
  intros Hwf j c Hj. unfold addRoad in *. cbn [roads cars] in *.
  destruct (Hwf j c Hj) as [r Hr]. exists r. apply lookup_app_l_Some, Hr.
Qed.

End FramesMore.

(** X6. Without a router a frame on a well-formed engine raises nothing:
    it is the physics pass followed by the removal of exactly the vehicles
    with progress >= 1, the others keeping their order; the roads are
    kept, the engine stays well formed, no vehicle is created and none
    ends the frame with progress >= 1. *)
Theorem animate_without_router {N : Type} `{Number N} (e : Engine N) :
  wellFormed e ->
  exists e',
    animate None e = Some e' /\
    e' = mkEngine (roads e) (List.filter stillMoving (cars (physics e))) /\
    wellFormed e' /\
    (length (cars e') <= length (cars e))%nat /\
    forall c, In c (cars e') -> ngeb (progress c) (nlit 1) = false.
Proof.
  intros Hwf. eexists. split; [apply animate_noRouter, Hwf|].
  split; [reflexivity|]. split; [|split].
  - apply (wellFormed_filter (physics e)), physics_keeps_wellFormed, Hwf.
  - cbn [cars]. rewrite <- (physicsFrom_length (roads e) 0 (cars e)).
    apply List.filter_length_le.
  - intros c Hc. cbn [cars] in Hc. apply filter_In in Hc as [_ Hc].
    unfold stillMoving in Hc. apply negb_true_iff, Hc.
Qed.

Lemma animate_without_router_witness :
  exists e', animate None (@stackedShortRoad float _) = Some e' /\
    (length (cars e') <= 2)%nat.
Proof.
  assert (Hwf : wellFormed (@stackedShortRoad float _)).
  { intros [|[|j]] c Hj; simpl in Hj; try discriminate;
      injection Hj as <-; eexists; reflexivity. }
  destruct (animate_without_router stackedShortRoad Hwf) as (e' & He' & _ & _ & Hlen & _).
  exists e'. split; [exact He' | exact Hlen].
Defined.

(** X7. Under a router that only spawns, as the router of the Braess
    module does, a frame on a well-formed engine raises nothing, keeps the
    roads and the well-formedness, and never increases the number of
    vehicles: a finished vehicle is replaced by at most one. *)
Theorem animate_with_spawning_router {N : Type} `{Number N}
    (f : Router N) (e : Engine N) :
  spawnOnly f -> wellFormed e ->
  exists e',
    animate (Some f) e = Some e' /\
    roads e' = roads e /\ wellFormed e' /\
    (length (cars e') <= length (cars e))%nat.
Proof.
  intros Hf Hwf.
  destruct (animate_spawnOnly f (fun _ => True) e Hf) as (e' & He' & Hr & Hwf' & _ & Hlen);
    auto.
  - apply List.Forall_forall. auto.
  - exists e'. auto.
Qed.

Lemma animate_with_spawning_router_witness :
  exists e', animate (Some (mod2Router true)) (@stackedShortRoad float _) = Some e' /\
    roads e' = roads stackedShortRoad.
Proof.
  assert (Hwf : wellFormed (@stackedShortRoad float _)).
  { intros [|[|j]] c Hj; simpl in Hj; try discriminate;
      injection Hj as <-; eexists; reflexivity. }
  destruct (animate_with_spawning_router (mod2Router true) stackedShortRoad
              (mod2Router_spawnOnly true) Hwf) as (e' & He' & Hr & _).
  exists e'. split; [exact He' | exact Hr].
Defined.

(** X8. The router of the Braess module: a vehicle that finishes any road
    other than Hwy_Top, Connector and Single_Bot leaves the map (true,
    engine unchanged); a refusal leaves the engine unchanged; an accepted
    vehicle is re-entered at progress 0 with its own colour and speed on
    Single_Top (from Hwy_Top and Connector) or, from Single_Bot, on
    Connector when the shortcut is open and on Hwy_Bot when it is closed. *)
Theorem mod2Router_behaviour {N : Type} `{Number N} (m2_shortcut : bool)
    (car : Car N) (finishedRoadId : string) (e : Engine N) :
  let r := mod2Router m2_shortcut car finishedRoadId e in
  let destination :=
    if String.eqb finishedRoadId "Hwy_Top" || String.eqb finishedRoadId "Connector"
    then Some "Single_Top"
    else if String.eqb finishedRoadId "Single_Bot"
         then Some (if m2_shortcut then "Connector" else "Hwy_Bot")
         else None in
  (fst r = false -> snd r = e) /\
  match destination with
  | None => r = (true, e)
  | Some dest =>
      fst r = true ->
      exists rIdx road,
        roads e !! rIdx = Some road /\ id road = dest /\
        snd r = mkEngine (roads e)
                  (cars e ++ [mkCar rIdx (nlit 0) (color car) (speed car)])
  end.
Proof.
  assert (Hspawn : forall dest,
            (fst (spawnCar dest (color car) (Some car) e) = false ->
             snd (spawnCar dest (color car) (Some car) e) = e) /\
            (fst (spawnCar dest (color car) (Some car) e) = true ->
             exists rIdx road,
               roads e !! rIdx = Some road /\ id road = dest /\
               snd (spawnCar dest (color car) (Some car) e) =
                 mkEngine (roads e)
                   (cars e ++ [mkCar rIdx (nlit 0) (color car) (speed car)]))).
  { intros dest.
    destruct (spawnCar_cases dest (color car) (Some car) e) as [-> | (rIdx & Hf & ->)];
      cbn [fst snd].
    - split; [reflexivity|discriminate].
    - split; [discriminate|]. intros _.
      destruct (findIndex_lookup _ _ _ Hf) as (road & Hroad & Hid).
      exists rIdx, road. auto. }
  intros r destination. unfold r, destination, mod2Router.
  destruct (_ || _); [apply Hspawn|].
  destruct (String.eqb finishedRoadId "Single_Bot").
  - destruct m2_shortcut; apply Hspawn.
  - split; [discriminate|reflexivity].
Qed.

(** ** Runs *)

Section RunsMore.
Context {N : Type} `{Number N}.

Lemma run_invariant (router : option (Router N)) :
  (forall f, router = Some f -> spawnOnly f) ->
  forall ops e,
    wellFormed e -> Forall (fun c => speed c = nlit 0) (cars e) ->
    exists e', run router ops e = Some e' /\ wellFormed e' /\
      Forall (fun c => speed c = nlit 0) (cars e').
Proof.
  intros Hrouter. induction ops as [|o ops IH]; intros e Hwf Hs; simpl; [eauto|].
  destruct o as [rid ax ay bx by_ col w v l a | roadId col |]; simpl.
  - apply IH; [apply addRoad_wellFormed, Hwf | exact Hs].
  - destruct (spawnCar_cases roadId col None e) as [-> | (rIdx & Hf & ->)]; cbn [snd].
    + apply IH; assumption.
    + destruct (findIndex_lookup _ _ _ Hf) as (road & Hroad & _).
      apply IH; [apply wellFormed_app; [exact Hwf | cbn; eauto]|].
      cbn [cars]. apply Forall_app. split; [exact Hs|].
      constructor; [reflexivity | constructor].
  - destruct router as [f|].
    + destruct (animate_spawnOnly f (fun c => speed c = nlit 0) e (Hrouter f eq_refl))
        as (e1 & -> & _ & Hwf1 & Hs1 & _); auto.
      congruence.
    + rewrite (animate_noRouter e Hwf). apply IH.
      * apply (wellFormed_filter (physics e)), physics_keeps_wellFormed, Hwf.
      * cbn [cars]. apply List.Forall_forall. intros c' Hc'.
        apply filter_In in Hc' as [Hc' _].
        destruct (physics_In e c' Hc') as (c & Hc & _ & _ & Hsp).
        rewrite Hsp. apply (proj1 (List.Forall_forall _ (cars e)) Hs c Hc).
Qed.

End RunsMore.

(** X9. Starting from the empty engine, no sequence of [addRoad],
    [spawnCar] and frames raises, with no router or with a router that
    only spawns; every engine reached is well formed, and the speed of
    every vehicle in it is 0: the engine never writes a speed other than
    0. *)
Theorem run_never_raises {N : Type} `{Number N}
    (router : option (Router N)) (ops : list (Op N)) :
  (forall f, router = Some f -> spawnOnly f) ->
  exists e,
    run router ops init = Some e /\ wellFormed e /\
    forall c, In c (cars e) -> speed c = nlit 0.
Proof.
  intros Hrouter.
  destruct (run_invariant router Hrouter ops init) as (e & He & Hwf & Hs).
  - intros j c Hj. discriminate.
  - constructor.
  - exists e. split; [exact He|]. split; [exact Hwf|].
    apply List.Forall_forall, Hs.
Qed.

Lemma run_never_raises_witness :
  exists e,
    run (Some (mod2Router false)) (@shortRoadScript float _) init = Some e /\
    wellFormed e.
Proof.
  destruct (run_never_raises (Some (mod2Router false)) (@shortRoadScript float _))
    as (e & He & Hwf & _).
  - intros f [= <-]. apply mod2Router_spawnOnly.
  - exists e. split; [exact He | exact Hwf].
Defined.

(** ** A vehicle alone in the engine *)

Section Alone.
Context {N : Type} `{Number N}.

Lemma empty_frames (rs : list (Road N)) (n : nat) :
  run None (repeat OpFrame n) (mkEngine rs []) = Some (mkEngine rs []).
Proof.
  induction n as [|n IH]; simpl; [reflexivity|].
  rewrite animate_noRouter by (intros j c Hj; discriminate).
  cbn [roads cars physics].
  assert (Hnil : physicsFrom 0 rs ([] : list (Car N)) = []).
  { apply length_zero_iff_nil. rewrite physicsFrom_length. reflexivity. }
  rewrite Hnil. exact IH.
Qed.

(** A collection of one vehicle is sorted without a comparison. *)
Lemma followRoad_single (road : Road N) (k : nat) (c : Car N) :
  followRoad road k [c] =
    if Nat.eqb (roadIndex c) k then [followCar road None c] else [c].
Proof.
  unfold followRoad, roadCarsOf, onRoad. simpl.
  destruct (Nat.eqb (roadIndex c) k); reflexivity.
Qed.

Lemma physicsFrom_single_later (rs : list (Road N)) :
  forall k c, (roadIndex c < k)%nat -> physicsFrom k rs [c] = [c].
Proof.
  induction rs as [|road0 rs IH]; intros k c Hlt; simpl; [reflexivity|].
  rewrite followRoad_single.
  replace (Nat.eqb (roadIndex c) k) with false
    by (symmetry; apply Nat.eqb_neq; lia).
  apply IH. lia.
Qed.

Lemma physicsFrom_single (road : Road N) (rs : list (Road N)) :
  forall k c, (k <= roadIndex c)%nat -> rs !! (roadIndex c - k)%nat = Some road ->
    physicsFrom k rs [c] = [followCar road None c].
Proof.
  induction rs as [|road0 rs IH]; intros k c Hk Hroad; [discriminate|]. simpl.
  rewrite followRoad_single.
  destruct (Nat.eqb (roadIndex c) k) eqn:Heq.
  - apply Nat.eqb_eq in Heq. subst k. rewrite Nat.sub_diag in Hroad.
    injection Hroad as ->. apply physicsFrom_single_later. simpl. lia.
  - apply Nat.eqb_neq in Heq. apply IH; [lia|].
    replace (roadIndex c - k)%nat with (S (roadIndex c - S k)) in Hroad by lia.
    exact Hroad.
Qed.

Lemma lone_vehicle_frame (rs : list (Road N)) (c : Car N) (road : Road N) :
  rs !! roadIndex c = Some road ->
  animate None (mkEngine rs [c]) =
    Some (mkEngine rs
            (if finished (setProgress (advance road (progress c)) c) then []
             else [setProgress (advance road (progress c)) c])).
Proof.
  intros Hroad.
  assert (Hwf : wellFormed (mkEngine rs [c])).
  { intros [|j] c' Hj; simpl in Hj; [|discriminate].
    injection Hj as <-. cbn. eauto. }
  rewrite (animate_noRouter _ Hwf). cbn [roads cars physics].
  rewrite (physicsFrom_single road rs 0 c); [|lia|rewrite Nat.sub_0_r; exact Hroad].
  change (followCar road None c) with (setProgress (advance road (progress c)) c).
  cbn [List.filter]. unfold stillMoving, finished.
  destruct (ngeb _ _); reflexivity.
Qed.

Lemma lone_vehicle_kept (rs : list (Road N)) (road : Road N) (n : nat) :
  forall c : Car N,
    rs !! roadIndex c = Some road ->
    (forall k, (1 <= k <= n)%nat ->
       ngeb (Nat.iter k (advance road) (progress c)) (nlit 1) = false) ->
    run None (repeat OpFrame n) (mkEngine rs [c]) =
      Some (mkEngine rs [setProgress (Nat.iter n (advance road) (progress c)) c]).
Proof.
  induction n as [|n IH]; intros c Hroad Hbelow.
  - destruct c. reflexivity.
  - cbn [repeat run step]. rewrite (lone_vehicle_frame rs c road Hroad).
    unfold finished. cbn [progress setProgress].
    assert (H1 : ngeb (advance road (progress c)) (nlit 1) = false)
      by (apply (Hbelow 1%nat); lia).
    rewrite H1. rewrite IH.
    + cbn [progress setProgress roadIndex color speed].
      rewrite <- Nat.iter_succ_r. reflexivity.
    + exact Hroad.
    + intros k Hk. cbn [progress setProgress]. rewrite <- Nat.iter_succ_r.
      apply Hbelow. lia.
Qed.

Lemma lone_vehicle_removed (rs : list (Road N)) (road : Road N) (n : nat) :
  forall (c : Car N) (m : nat),
    rs !! roadIndex c = Some road ->
    (1 <= m <= n)%nat ->
    (forall k, (1 <= k < m)%nat ->
       ngeb (Nat.iter k (advance road) (progress c)) (nlit 1) = false) ->
    ngeb (Nat.iter m (advance road) (progress c)) (nlit 1) = true ->
    run None (repeat OpFrame n) (mkEngine rs [c]) = Some (mkEngine rs []).
Proof.
  induction n as [|n IH]; intros c m Hroad Hm Hbelow Hreach; [lia|].
  cbn [repeat run step]. rewrite (lone_vehicle_frame rs c road Hroad).
  unfold finished. cbn [progress setProgress].
  destruct (Nat.eq_dec m 1) as [->|Hne].
  - change (ngeb (advance road (progress c)) (nlit 1) = true) in Hreach.
    rewrite Hreach. apply empty_frames.
  - assert (H1 : ngeb (advance road (progress c)) (nlit 1) = false)
      by (apply (Hbelow 1%nat); lia).
    rewrite H1.
    apply (IH _ (m - 1)%nat); [exact Hroad | lia | |].
    + intros k Hk. cbn [progress setProgress]. rewrite <- Nat.iter_succ_r.
      apply Hbelow. lia.
    + cbn [progress setProgress]. rewrite <- Nat.iter_succ_r.
      replace (S (m - 1)) with m by lia. exact Hreach.
Qed.

End Alone.

(** X10. A vehicle alone in the engine, without a router, on every number
    carrier: each frame replaces its progress by
    progress + 0.01 * speedFactor, one addition per frame whatever the
    length of the road, and leaves its road, colour and speed as they are.
    As long as none of these sums is >= 1 the vehicle stays in the
    collection; in the first frame whose sum is >= 1 it is removed, and the
    engine is empty from then on. *)
Theorem lone_vehicle_traversal {N : Type} `{Number N}
    (rs : list (Road N)) (road : Road N) (c : Car N) (n : nat) :
  rs !! roadIndex c = Some road ->
  let p := fun k => Nat.iter k (advance road) (progress c) in
  ((forall k, (1 <= k <= n)%nat -> ngeb (p k) (nlit 1) = false) ->
   run None (repeat OpFrame n) (mkEngine rs [c]) =
     Some (mkEngine rs [mkCar (roadIndex c) (p n) (color c) (speed c)])) /\
  (forall m, (1 <= m <= n)%nat ->
     (forall k, (1 <= k < m)%nat -> ngeb (p k) (nlit 1) = false) ->
     ngeb (p m) (nlit 1) = true ->
     run None (repeat OpFrame n) (mkEngine rs [c]) = Some (mkEngine rs [])).
Proof.
  intros Hroad p. split.
  - intros Hbelow. apply (lone_vehicle_kept rs road n c Hroad Hbelow).
  - intros m Hm Hbelow Hreach.
    apply (lone_vehicle_removed rs road n c m Hroad Hm Hbelow Hreach).
Qed.

(** On binary64 with speed factor 10 the tenth sum is 0.9999999999999999:
    the vehicle is still on the road after ten frames and is removed in
    the eleventh. *)
Lemma lone_vehicle_traversal_witness :
  (exists c', run None (repeat OpFrame 10) (mkEngine [@tenRoad float _] [enteredCar]) =
     Some (mkEngine [tenRoad] [c']) /\
     PrimFloat.ltb (progress c') (nlit 1) = true) /\
  run None (repeat OpFrame 11) (mkEngine [@tenRoad float _] [enteredCar]) =
    Some (mkEngine [tenRoad] []).
Proof.
  split.
  - destruct (lone_vehicle_traversal [@tenRoad float _] tenRoad enteredCar 10 eq_refl)
      as [Hkept _].
    eexists. split.
    + apply Hkept. intros k Hk.
      do 11 (destruct k as [|k]; [try lia; vm_compute; reflexivity|]). lia.
    + vm_compute. reflexivity.
  - destruct (lone_vehicle_traversal [@tenRoad float _] tenRoad enteredCar 11 eq_refl)
      as [_ Hgone].
    apply (Hgone 11%nat); [lia| |vm_compute; reflexivity].
    intros k Hk.
    do 11 (destruct k as [|k]; [try lia; vm_compute; reflexivity|]). lia.
Defined.

(** ** Processing order and direction of travel *)

Section Order.
Local Open Scope Q_scope.

Lemma descending_tail (cs : list (Car Q)) (a : nat) (l : list nat) :
  descending cs (a :: l) -> descending cs l.
Proof.
  intros Hd k x y cx cy Hx Hy. apply (Hd (S k) x y cx cy); assumption.
Qed.

Lemma sortCars_fixed (cs : list (Car Q)) (l : list nat) :
  descending cs l -> sortCars cs l = l.
Proof.
  induction l as [|a l IH]; intros Hd; simpl; [reflexivity|].
  rewrite IH by (eapply descending_tail, Hd).
  destruct l as [|b l]; simpl; [reflexivity|].
  replace (after cs a b) with false; [reflexivity|].
  symmetry. apply not_true_iff_false. intros Haft.
  apply after_lt in Haft as (ca & cb & Ha & Hb & Hlt).
  pose proof (Hd 0%nat a b ca cb eq_refl eq_refl Ha Hb). lra.
Qed.

End Order.

(** X11. When the vehicles of a list are already in descending progress,
    the sort of the physics pass leaves the list as it is, so vehicles that
    entered one behind the other are processed in the order of the
    collection; sorting a second time changes nothing. *)
Theorem sortCars_keeps_descending_order (cs : list (Car Q)) (l : list nat) :
  (descending cs l -> sortCars cs l = l) /\
  sortCars cs (sortCars cs l) = sortCars cs l.
Proof.
  split; [apply sortCars_fixed|]. apply sortCars_fixed, sortCars_descending.
Qed.

Lemma sortCars_keeps_descending_order_witness :
  sortCars (cars (@stackedShortRoad Q _)) [0; 1]%nat = [0; 1]%nat.
Proof.
  apply (proj1 (sortCars_keeps_descending_order (cars stackedShortRoad) [0; 1]%nat)).
  intros [|[|k]] a b ca cb Ha Hb Hca Hcb; simpl in Ha, Hb; try discriminate.
  injection Ha as <-. injection Hb as <-. simpl in Hca, Hcb.
  injection Hca as <-. injection Hcb as <-. simpl. lra.
Defined.

(** X12. With a speed factor >= 0 the car-following step lowers the
    progress of a vehicle only when it clamps it, that is only when there
    is a vehicle ahead and the gap the step computes,
    aheadProgress * length - progress * length, is below carLength + 15.
    In every other case the vehicle moves forward, by at most
    0.01 * speedFactor.  The length of the road plays no part. *)
Theorem followCar_decreases_only_clamped (road : Road Q) (ahead : option (Car Q))
    (car : Car Q) :
  (0 <= speedFactor road)%Q ->
  ((progress (followCar road ahead car) < progress car)%Q ->
   exists a, ahead = Some a /\
     (progress a * len road - progress car * len road < carLength + 15)%Q) /\
  ((forall a, ahead = Some a ->
      (carLength + 15 <= progress a * len road - progress car * len road)%Q) ->
   (progress car <= progress (followCar road ahead car))%Q /\
   (progress (followCar road ahead car) <= progress car + baseTarget road)%Q).
Proof.
  intros Hsf.
  assert (Hv : (0 <= (1 # 100) * speedFactor road)%Q)
    by (apply Qmult_le_0_compat; lra).
  unfold followCar, baseTarget. destruct ahead as [a|]; qnum.
  - destruct (Qltb _ (carLength + 15)) eqn:Hclamp.
    + apply Qltb_lt in Hclamp. split.
      * intros _. exists a. split; [reflexivity | exact Hclamp].
      * intros Hfar. specialize (Hfar a eq_refl). exfalso. lra.
    + apply Qltb_ge in Hclamp.
      destruct (Qltb _ (carLength + 15 + 60)); simpl;
        (split; [intros Hdown; exfalso; lra | intros _; lra]).
  - simpl. split; [intros Hdown; exfalso; lra|]. intros _. lra.
Qed.

Lemma followCar_decreases_only_clamped_witness :
  exists a,
    Some (followCar shortRoad None (@parkedCar Q _)) = Some a /\
    (progress a * len shortRoad - progress (@enteredCar Q _) * len shortRoad
       < carLength + 15)%Q.
Proof.
  assert (Hsf : (0 <= speedFactor (@shortRoad Q _))%Q) by (simpl; lra).
  apply (proj1 (followCar_decreases_only_clamped shortRoad
                  (Some (followCar shortRoad None parkedCar)) enteredCar Hsf)).
  reflexivity.
Defined.

(** * Properties of the module scripts *)

Section SpeedWrite.
Context {N : Type} `{Number N} `{NumberMath N}.

Lemma findIndexFrom_alter (g : Road N -> Road N) (roadId : string) (rs : list (Road N)) :
  (forall r, id (g r) = id r) ->
  forall j k, findIndexFrom roadId k (alter g j rs) = findIndexFrom roadId k rs.
Proof.
  intros Hg. induction rs as [|r rs IH]; intros [|j] k; simpl; auto.
  - rewrite Hg. reflexivity.
  - change (list_alter g j rs) with (alter g j rs). rewrite IH. reflexivity.
Qed.

End SpeedWrite.

(** X13. The speed write of [updateMod1] raises exactly when no road has
    the id; otherwise it changes the speed factor of the first road
    registered under the id and nothing else: the other fields of that
    road, the other roads, what every id resolves to and the vehicles are
    as before, and the engine stays well formed. *)
Theorem writeSpeedFactor_spec {N : Type} `{Number N} `{NumberMath N}
    (rid : string) (v : N) (e : Engine N) :
  (writeSpeedFactor rid v e = None <-> findIndex rid (roads e) = None) /\
  forall e', writeSpeedFactor rid v e = Some e' ->
    cars e' = cars e /\
    (forall rid', findIndex rid' (roads e') = findIndex rid' (roads e)) /\
    (wellFormed e -> wellFormed e') /\
    exists k r,
      findIndex rid (roads e) = Some k /\ roads e !! k = Some r /\
      roads e' !! k = Some (setSpeedFactor v r) /\
      forall j, j <> k -> roads e' !! j = roads e !! j.
Proof.
  split.
  - unfold writeSpeedFactor. destruct (findIndex rid (roads e)); split; auto; discriminate.
  - intros e' He'. unfold writeSpeedFactor in He'.
    destruct (findIndex rid (roads e)) as [k|] eqn:Hf; [|discriminate].
    injection He' as <-. cbn [roads cars].
    destruct (findIndex_lookup _ _ _ Hf) as (r & Hr & _).
    split; [reflexivity|]. split; [|split].
    + intros rid'. apply findIndexFrom_alter. reflexivity.
    + intros Hwf j c Hj. cbn [roads cars] in *.
      destruct (Hwf j c Hj) as [r0 Hr0].
      apply lookup_lt_is_Some. rewrite length_alter.
      apply lookup_lt_is_Some. eauto.
    + exists k, r. split; [reflexivity|]. split; [exact Hr|]. split.
      * rewrite list_lookup_alter_eq, Hr. reflexivity.
      * intros j Hj. apply list_lookup_alter_ne. auto.
Qed.

Lemma writeSpeedFactor_spec_witness :
  exists e',
    writeSpeedFactor "S" (nlit (1 # 2)) (@stackedShortRoad float _) = Some e' /\
    cars e' = cars stackedShortRoad.
Proof.
  eexists. split; [reflexivity|].
  exact (proj1 (proj2 (writeSpeedFactor_spec "S" (nlit (1 # 2)) stackedShortRoad)
                  _ eq_refl)).
Defined.

(** ** Module 1 on the rationals *)

Section Module1.
Local Open Scope Q_scope.

Lemma mod1_moved_grid (dir : string) (a : Q) (k : Z) :
  (0 <= k <= 40)%Z -> a == 100 * inject_Z k ->
  exists k', (0 <= k' <= 40)%Z /\ mod1_moved dir a == 100 * inject_Z k'.
Proof.
  intros Hk Ha. unfold mod1_moved. qnum.
  assert (Hk0 : 0 <= inject_Z k) by (change 0 with (inject_Z 0); rewrite <- Zle_Qle; lia).
  assert (Hk40 : inject_Z k <= 40) by (change 40 with (inject_Z 40); rewrite <- Zle_Qle; lia).
  destruct (String.eqb dir "toB") eqn:HtoB.
  - assert (HtoA : String.eqb dir "toA" = false).
    { apply String.eqb_eq in HtoB. subst dir. reflexivity. }
    rewrite HtoA. cbn [andb].
    destruct (Qle_bool 100 a) eqn:Hge.
    + apply Qle_bool_iff in Hge. exists (k - 1)%Z. split.
      * assert (1 <= inject_Z k) by lra.
        change 1 with (inject_Z 1) in H. rewrite <- Zle_Qle in H. lia.
      * unfold Z.sub. rewrite inject_Z_plus, inject_Z_opp.
        change (inject_Z 1) with 1. lra.
    + exists k. auto.
  - cbn [andb]. destruct (String.eqb dir "toA"); cbn [andb]; [|exists k; auto].
    destruct (Qle_bool a 3900) eqn:Hle; [|exists k; auto].
    apply Qle_bool_iff in Hle. exists (k + 1)%Z. split.
    + assert (inject_Z k <= 39) by lra.
      change 39 with (inject_Z 39) in H. rewrite <- Zle_Qle in H. lia.
    + rewrite inject_Z_plus. change (inject_Z 1) with 1. lra.
Qed.

Lemma mod1_fold_grid (presses : list (option string)) :
  forall (a : Q) (k : Z), (0 <= k <= 40)%Z -> a == 100 * inject_Z k ->
    exists k', (0 <= k' <= 40)%Z /\
      fold_left
        (fun a press =>
           match press with
           | Some dir => mod1_moved dir a
           | None => nlit 4000
           end) presses a == 100 * inject_Z k'.
Proof.
  induction presses as [|press presses IH]; intros a k Hk Ha; simpl; [eauto|].
  destruct press as [dir|].
  - destruct (mod1_moved_grid dir a k Hk Ha) as (k' & Hk' & Ha'). eapply IH; eauto.
  - apply (IH _ 40%Z); [lia|reflexivity].
Qed.

End Module1.

(** X14. Whatever buttons of module 1 are pressed, in whatever order and
    with whatever argument [mod1_move] is called, [m1_carsA] stays a
    multiple of 100 between 0 and 4000. *)
Theorem mod1_cars_stay_on_grid (presses : list (option string)) :
  exists k : Z, (0 <= k <= 40)%Z /\
    (@mod1_pressed Q _ presses == 100 * inject_Z k)%Q.
Proof.
  apply (mod1_fold_grid presses 4000%Q 40%Z); [lia|reflexivity].
Qed.

(** X15. With roads A and B registered, [updateMod1] raises nothing, keeps
    the vehicles, sets the speed factor of A to 10 / (10 + m1_carsA / 100)
    and that of B to 10 / 45, and announces equilibrium exactly when
    3400 < m1_carsA < 3600 (on the grid of the buttons: at 3500); from
    3600 on it sends drivers to B and up to 3400 to A.  For m1_carsA
    between 0 and 4000 the speed factor of A lies between 1/5 and 1. *)
Theorem updateMod1_outcome (m1_carsA : Q) (viz : Engine Q) (ka kb : nat) :
  findIndex "A" (roads viz) = Some ka ->
  findIndex "B" (roads viz) = Some kb ->
  exists viz' view ra rb,
    updateMod1 m1_carsA viz = Some (viz', view) /\
    cars viz' = cars viz /\
    roads viz' !! ka = Some ra /\
    speedFactor ra = (10 / (10 + m1_carsA / 100))%Q /\
    roads viz' !! kb = Some rb /\
    speedFactor rb = (10 / 45)%Q /\
    (m1Msg view = Equilibrium <-> (3400 < m1_carsA /\ m1_carsA < 3600)%Q) /\
    (m1Msg view = RouteASlower <-> (3600 <= m1_carsA)%Q) /\
    (m1Msg view = RouteAFaster <-> (m1_carsA <= 3400)%Q) /\
    ((0 <= m1_carsA /\ m1_carsA <= 4000)%Q ->
     (1 # 5 <= speedFactor ra /\ speedFactor ra <= 1)%Q).
Proof.
  intros HA HB.
  destruct (findIndex_lookup _ _ _ HA) as (r0a & Hr0a & Hida).
  destruct (findIndex_lookup _ _ _ HB) as (r0b & Hr0b & Hidb).
  assert (Hne : ka <> kb).
  { intros ->. rewrite Hr0a in Hr0b. injection Hr0b as <-. congruence. }
  unfold updateMod1, writeSpeedFactor at 1. rewrite HA.
  set (viz1 := mkEngine (alter (setSpeedFactor _) ka (roads viz)) (cars viz)).
  assert (HB1 : findIndex "B" (roads viz1) = Some kb).
  { unfold viz1. cbn [roads]. unfold findIndex.
    rewrite findIndexFrom_alter by reflexivity. exact HB. }
  unfold writeSpeedFactor. rewrite HB1.
  do 4 eexists. split; [reflexivity|]. cbn [roads cars viz1 m1Msg].
  split; [reflexivity|].
  split. { rewrite list_lookup_alter_ne by auto.
           rewrite list_lookup_alter_eq, Hr0a. reflexivity. }
  split; [reflexivity|].
  split. { rewrite list_lookup_alter_eq, list_lookup_alter_ne by auto.
           rewrite Hr0b. reflexivity. }
  split; [reflexivity|]. qnum. cbn [nabs Q_NumberMath].
  set (timeA := (10 + m1_carsA / 100)%Q).
  assert (HtimeA : (timeA == 10 + m1_carsA * (1 # 100))%Q) by (unfold timeA; field).
  assert (Hspeed : ((0 <= m1_carsA /\ m1_carsA <= 4000) ->
            1 # 5 <= 10 / timeA /\ 10 / timeA <= 1)%Q).
  { intros [H0 H4]. split.
    - apply Qle_shift_div_l; lra.
    - apply Qle_shift_div_r; lra. }
  destruct (Qltb (Qabs (timeA - 45)) 1) eqn:Habs.
  - apply Qltb_lt, Qabs_Qlt_condition in Habs.
    repeat split; try discriminate; try lra; try (apply Hspeed; assumption);
      intros; exfalso; lra.
  - apply Qltb_ge in Habs.
    assert (Hout : (timeA - 45 <= -1 \/ 1 <= timeA - 45)%Q).
    { destruct (Qlt_le_dec (timeA - 45) 0) as [Hneg|Hpos].
      - left. rewrite Qabs_neg in Habs by lra. lra.
      - right. rewrite Qabs_pos in Habs by lra. lra. }
    destruct (Qltb 45 timeA) eqn:Hslow.
    + apply Qltb_lt in Hslow.
      repeat split; try discriminate; try lra; try (apply Hspeed; assumption);
        intros; exfalso; lra.
    + apply Qltb_ge in Hslow.
      repeat split; try discriminate; try lra; try (apply Hspeed; assumption);
        intros; exfalso; lra.
Qed.

Lemma updateMod1_outcome_witness :
  exists viz' view,
    updateMod1 3500%Q (initMod1Roads 800%Q 400%Q (@init Q)) = Some (viz', view) /\
    m1Msg view = Equilibrium.
Proof.
  destruct (updateMod1_outcome 3500%Q (initMod1Roads 800%Q 400%Q init) 0 1 eq_refl eq_refl)
    as (viz' & view & ra & rb & Hrun & _ & _ & _ & _ & _ & Heq & _).
  exists viz', view. split; [exact Hrun|].
  apply Heq. split; reflexivity.
Defined.

(** ** Timers *)

Section Timers.
Context {N : Type} `{Number N} `{NumberMath N}.

(** A timer callback spawns with [existingCar] omitted: the engine is
    returned as it was, or with one stopped vehicle at progress 0 appended
    on the first road of the id. *)
Lemma spawn_fresh (roadId col : string) (e : Engine N) :
  wellFormed e ->
  roads (snd (spawnCar roadId col None e)) = roads e /\
  wellFormed (snd (spawnCar roadId col None e)) /\
  (snd (spawnCar roadId col None e) = e \/
   exists rIdx road,
     roads e !! rIdx = Some road /\ id road = roadId /\
     cars (snd (spawnCar roadId col None e)) =
       cars e ++ [mkCar rIdx (nlit 0) col (nlit 0)]).
Proof.
  intros Hwf.
  destruct (spawnCar_cases roadId col None e) as [-> | (rIdx & Hf & ->)]; cbn [snd].
  - auto.
  - destruct (findIndex_lookup _ _ _ Hf) as (road & Hroad & Hid).
    split; [reflexivity|].
    split; [apply wellFormed_app; [exact Hwf | cbn; eauto]|].
    right. exists rIdx, road. auto.
Qed.

End Timers.

(** X16. The spawner of module 4, for a random draw in [0, 1): the number
    of cars on Main is never negative, is at most 4000 for a toll >= 0 and
    does not grow with the toll; from a toll of 20 on every vehicle is
    sent to Long, and at a toll of 0 or less every vehicle is sent to
    Main. *)
Theorem m4Tick_by_toll (toll rnd : Q) (viz : Engine Q) :
  (0 <= rnd)%Q -> (rnd < 1)%Q ->
  (0 <= carsOnMain toll)%Q /\
  ((0 <= toll)%Q -> (carsOnMain toll <= 4000)%Q) /\
  (forall toll', (toll <= toll')%Q -> (carsOnMain toll' <= carsOnMain toll)%Q) /\
  ((20 <= toll)%Q ->
   m4Tick toll rnd viz = snd (spawnCar "Long" "#27ae60" None viz)) /\
  ((toll <= 0)%Q ->
   m4Tick toll rnd viz = snd (spawnCar "Main" "#e74c3c" None viz)).
Proof.
  intros Hr0 Hr1. unfold m4Tick, carsOnMain. qnum. cbn [nmax Q_NumberMath].
  assert (Hspec : forall t, ((0 < 4000 - t * 200 /\ Qmax 0 (4000 - t * 200) == 4000 - t * 200) \/
                             (4000 - t * 200 <= 0 /\ Qmax 0 (4000 - t * 200) == 0))%Q).
  { intros t. apply Q.max_spec. }
  split; [|split; [|split; [|split]]].
  - destruct (Hspec toll) as [[? ->]|[? ->]]; lra.
  - intros Ht. destruct (Hspec toll) as [[? ->]|[? ->]]; lra.
  - intros toll' Hle.
    destruct (Hspec toll) as [[? ->]|[? ->]], (Hspec toll') as [[? ->]|[? ->]]; lra.
  - intros Ht. replace (Qltb rnd _) with false; [reflexivity|].
    symmetry. apply Qltb_ge.
    destruct (Hspec toll) as [[? Hm]|[? Hm]]; [lra|].
    rewrite Hm. unfold Qdiv. lra.
  - intros Ht. replace (Qltb rnd _) with true; [reflexivity|].
    symmetry. apply Qltb_lt.
    destruct (Hspec toll) as [[? Hm]|[? Hm]]; [|lra].
    rewrite Hm. apply Qlt_shift_div_l; lra.
Qed.

Lemma m4Tick_by_toll_witness :
  m4Tick 20%Q (1 # 2)%Q (@init Q) = snd (spawnCar "Long" "#27ae60" None (@init Q)).
Proof.
  assert (Hr0 : (0 <= 1 # 2)%Q) by (intro Hc; discriminate Hc).
  assert (Hr1 : (1 # 2 < 1)%Q) by reflexivity.
  apply (proj1 (proj2 (proj2 (proj2 (m4Tick_by_toll 20%Q (1 # 2)%Q init Hr0 Hr1))))).
  intro Hc; discriminate Hc.
Defined.

(** X17. The spawner of module 2 keeps the roads and the well-formedness
    and adds at most one vehicle per call, stopped at progress 0 and on a
    road registered as Hwy_Top or Single_Bot: Single_Top, Hwy_Bot and
    Connector receive vehicles from the router only. *)
Theorem m2Tick_entries {N : Type} `{Number N} `{NumberMath N}
    (m2_shortcut : bool) (rnd1 rnd2 : N) (viz : Engine N) :
  wellFormed viz ->
  roads (m2Tick m2_shortcut rnd1 rnd2 viz) = roads viz /\
  wellFormed (m2Tick m2_shortcut rnd1 rnd2 viz) /\
  (m2Tick m2_shortcut rnd1 rnd2 viz = viz \/
   exists rIdx road col,
     roads viz !! rIdx = Some road /\
     (id road = "Hwy_Top" \/ id road = "Single_Bot") /\
     cars (m2Tick m2_shortcut rnd1 rnd2 viz) =
       cars viz ++ [mkCar rIdx (nlit 0) col (nlit 0)]).
Proof.
  intros Hwf.
  assert (Hentry : forall roadId col,
            (roadId = "Hwy_Top" \/ roadId = "Single_Bot") ->
            roads (snd (spawnCar roadId col None viz)) = roads viz /\
            wellFormed (snd (spawnCar roadId col None viz)) /\
            (snd (spawnCar roadId col None viz) = viz \/
             exists rIdx road col0,
               roads viz !! rIdx = Some road /\
               (id road = "Hwy_Top" \/ id road = "Single_Bot") /\
               cars (snd (spawnCar roadId col None viz)) =
                 cars viz ++ [mkCar rIdx (nlit 0) col0 (nlit 0)])).
  { intros roadId col Hid.
    destruct (spawn_fresh roadId col viz Hwf) as (Hr & Hwf' & [Hsame | (rIdx & road & Hroad & Hidr & Hcars)]).
    - auto.
    - split; [exact Hr|]. split; [exact Hwf'|]. right.
      exists rIdx, road, col. rewrite Hidr. auto. }
  unfold m2Tick.
  destruct m2_shortcut; destruct (nltb rnd1 _); auto;
    destruct (nltb rnd2 _); apply Hentry; auto.
Qed.

Lemma m2Tick_entries_witness :
  wellFormed (m2Tick true (nlit (1 # 2)) (nlit (1 # 2)) (@stackedShortRoad float _)).
Proof.
  assert (Hwf : wellFormed (@stackedShortRoad float _)).
  { intros [|[|j]] c Hj; simpl in Hj; try discriminate;
      injection Hj as <-; eexists; reflexivity. }
  exact (proj1 (proj2 (m2Tick_entries true (nlit (1 # 2)) (nlit (1 # 2))
                         stackedShortRoad Hwf))).
Defined.

(** X18. The spawner of module 1, for a random draw in [0, 1): with all
    4000 cars on A (the state after a reset) every vehicle is sent to road
    A, with none of them on A every vehicle is sent to road B, and in
    between the draw decides: A exactly when it is below m1_carsA / 4000. *)
Theorem m1Tick_by_share (rnd m1_carsA : Q) (viz : Engine Q) :
  (0 <= rnd)%Q -> (rnd < 1)%Q ->
  ((4000 <= m1_carsA)%Q ->
   m1Tick rnd m1_carsA viz = snd (spawnCar "A" "#e74c3c" None viz)) /\
  ((m1_carsA <= 0)%Q ->
   m1Tick rnd m1_carsA viz = snd (spawnCar "B" "#27ae60" None viz)) /\
  ((rnd * 4000 < m1_carsA)%Q ->
   m1Tick rnd m1_carsA viz = snd (spawnCar "A" "#e74c3c" None viz)) /\
  ((m1_carsA <= rnd * 4000)%Q ->
   m1Tick rnd m1_carsA viz = snd (spawnCar "B" "#27ae60" None viz)).
Proof.
  intros Hr0 Hr1. unfold m1Tick, m1_total. qnum.
  assert (HA : (rnd * 4000 < m1_carsA)%Q ->
               Qltb rnd (m1_carsA / 4000) = true).
  { intros Hlt. apply Qltb_lt, Qlt_shift_div_l; lra. }
  assert (HB : (m1_carsA <= rnd * 4000)%Q ->
               Qltb rnd (m1_carsA / 4000) = false).
  { intros Hle. apply Qltb_ge, Qle_shift_div_r; lra. }
  split; [|split; [|split]]; intros Hc.
  - rewrite HA by lra. reflexivity.
  - rewrite HB by lra. reflexivity.
  - rewrite HA by lra. reflexivity.
  - rewrite HB by lra. reflexivity.
Qed.

Lemma m1Tick_by_share_witness :
  m1Tick (1 # 2)%Q 4000%Q (@init Q) = snd (spawnCar "A" "#e74c3c" None (@init Q)).
Proof.
  assert (Hr0 : (0 <= 1 # 2)%Q) by (intro Hc; discriminate Hc).
  assert (Hr1 : (1 # 2 < 1)%Q) by reflexivity.
  apply (proj1 (m1Tick_by_share (1 # 2)%Q 4000%Q init Hr0 Hr1)).
  intro Hc; discriminate Hc.
Defined.

(** * The frame as a whole *)

(** ** The physics pass, road by road *)

Section RoadByRoad.
Context {N : Type} `{Number N}.

Lemma after_ext (cs1 cs : list (Car N)) (a b : nat) :
  cs1 !! a = cs !! a -> cs1 !! b = cs !! b -> after cs1 a b = after cs a b.
Proof. intros Ha Hb. unfold after. rewrite Ha, Hb. reflexivity. Qed.

Lemma insertCar_ext (cs1 cs : list (Car N)) (a : nat) (l : list nat) :
  (forall b, In b l -> after cs1 a b = after cs a b) ->
  insertCar cs1 a l = insertCar cs a l.
Proof.
  induction l as [|b l IH]; intros Hl; simpl; [reflexivity|].
  rewrite (Hl b) by (left; reflexivity).
  rewrite IH by (intros b' Hb'; apply Hl; right; exact Hb'). reflexivity.
Qed.

Lemma sortCars_ext (cs1 cs : list (Car N)) (l : list nat) :
  (forall a, In a l -> cs1 !! a = cs !! a) ->
  sortCars cs1 l = sortCars cs l.
Proof.
  induction l as [|a l IH]; intros Hl; simpl; [reflexivity|].
  rewrite IH by (intros b Hb; apply Hl; right; exact Hb).
  apply insertCar_ext. intros b Hb. apply after_ext.
  - apply Hl. left. reflexivity.
  - apply Hl. right.
    apply (Permutation_in b (Permutation_sym (sortCars_perm cs l)) Hb).
Qed.

(** The pass of another road changes neither which vehicles are on road
    [rIdx] nor these vehicles. *)
Lemma followRoad_elsewhere (road0 : Road N) (k rIdx : nat) (cs : list (Car N)) :
  k <> rIdx ->
  roadCarsOf rIdx (followRoad road0 k cs) = roadCarsOf rIdx cs /\
  forall a, In a (roadCarsOf rIdx cs) -> followRoad road0 k cs !! a = cs !! a.
Proof.
  intros Hne. split.
  - unfold roadCarsOf. rewrite followRoad_length. apply List.filter_ext.
    intros j. unfold onRoad. destruct (cs !! j) as [c|] eqn:Hc.
    + destruct (followRoad_preserves road0 k cs j c Hc) as (c' & -> & Hr & _).
      rewrite Hr. reflexivity.
    + rewrite (lookup_ge_None_2 (followRoad road0 k cs) j); [reflexivity|].
      rewrite followRoad_length. apply lookup_ge_None_1, Hc.
  - intros a Ha. apply roadCarsOf_In in Ha as (c & Hc & Hr).
    rewrite Hc. apply followRoad_other; [exact Hc | congruence].
Qed.

Lemma physicsFrom_later (rs : list (Road N)) (k : nat) (cs : list (Car N))
    (j : nat) (c : Car N) :
  cs !! j = Some c -> (roadIndex c < k)%nat -> physicsFrom k rs cs !! j = Some c.
Proof.
  intros Hj Hlt.
  destruct (physicsFrom_fields rs k cs j c Hj) as (c' & Hc' & _ & _ & _ & Hsame).
  rewrite Hc', Hsame; [reflexivity|]. left. exact Hlt.
Qed.

(** Within the physics pass of a frame, the vehicle at place [pos] of the
    processing order of road [rIdx] ends as [followCar] of its value at the
    start of the frame and of the value the frame has given to the vehicle
    at place [pos - 1]. *)
Lemma physicsFrom_road (road : Road N) (rIdx : nat) (rs : list (Road N)) :
  forall k cs, (k <= rIdx)%nat -> rs !! (rIdx - k)%nat = Some road ->
    forall pos i car,
      sortCars cs (roadCarsOf rIdx cs) !! pos = Some i -> cs !! i = Some car ->
      physicsFrom k rs cs !! i =
        Some (followCar road
                (aheadAt (sortCars cs (roadCarsOf rIdx cs)) (physicsFrom k rs cs) pos)
                car).
Proof.
  induction rs as [|road0 rs IH]; intros k cs Hk Hroad pos i car Hpos Hi;
    [discriminate|]. simpl.
  destruct (Nat.eq_dec k rIdx) as [->|Hne].
  - rewrite Nat.sub_diag in Hroad. injection Hroad as ->.
    pose proof (followRoad_spec road rIdx cs pos i car Hpos Hi) as Hdone.
    set (l := sortCars cs (roadCarsOf rIdx cs)) in *.
    set (cs1 := followRoad road rIdx cs) in *.
    assert (Hsame : forall a, In a l ->
              physicsFrom (S rIdx) rs cs1 !! a = cs1 !! a).
    { intros a Ha. apply sorted_roadCars_In in Ha as (c & Hc & Hr).
      destruct (followRoad_preserves road rIdx cs a c Hc) as (c' & Hc' & Hr' & _).
      fold cs1 in Hc'. rewrite Hc'. apply physicsFrom_later; [exact Hc'|]. lia. }
    rewrite Hsame by (apply list_elem_of_In, list_elem_of_lookup; eauto).
    rewrite Hdone. do 2 f_equal.
    destruct pos as [|p]; [reflexivity|]. simpl.
    destruct (l !! p) as [a|] eqn:Ha; [|reflexivity]. simpl.
    symmetry. apply Hsame. apply list_elem_of_In, list_elem_of_lookup. eauto.
  - destruct (followRoad_elsewhere road0 k rIdx cs Hne) as [Hcars Hkeep].
    assert (Hl : sortCars (followRoad road0 k cs) (roadCarsOf rIdx (followRoad road0 k cs))
                 = sortCars cs (roadCarsOf rIdx cs)).
    { rewrite Hcars. apply sortCars_ext, Hkeep. }
    rewrite <- Hl. apply IH; [lia| | |].
    + replace (rIdx - k)%nat with (S (rIdx - S k)) in Hroad by lia. exact Hroad.
    + rewrite Hl. exact Hpos.
    + rewrite Hkeep; [exact Hi|].
      apply roadCarsOf_In. exists car. split; [exact Hi|].
      assert (Hin : In i (sortCars cs (roadCarsOf rIdx cs)))
        by (apply list_elem_of_In, list_elem_of_lookup; eauto).
      apply sorted_roadCars_In in Hin as (c & Hc & Hr). congruence.
Qed.

Lemma physics_road (e : Engine N) (rIdx : nat) (road : Road N) :
  roads e !! rIdx = Some road ->
  forall pos i car,
    sortCars (cars e) (roadCarsOf rIdx (cars e)) !! pos = Some i ->
    cars e !! i = Some car ->
    cars (physics e) !! i =
      Some (followCar road
              (aheadAt (sortCars (cars e) (roadCarsOf rIdx (cars e)))
                 (cars (physics e)) pos)
              car).
Proof.
  intros Hroad pos i car Hpos Hi. unfold physics. cbn [cars].
  apply (physicsFrom_road road rIdx (roads e) 0 (cars e)); auto; [lia|].
  rewrite Nat.sub_0_r. exact Hroad.
Qed.

End RoadByRoad.



(** C10. In the physics pass of a frame every registered road runs through
    its vehicles by descending progress and stores each new progress at
    once: the vehicle at place k of the order is updated against the value
    the same frame has already given to the vehicle at place k-1, which is
    also the value that vehicle has when the physics pass ends.  On the
    road of length 40 with a vehicle parked at its end this differs from an
    update against the positions at the start of the frame: the follower
    ends at -0.24, not at -0.25. *)
Theorem leader_seen_as_updated (router : option (Router Q)) (e : Engine Q)
    (rIdx : nat) (road : Road Q) :
  roads e !! rIdx = Some road ->
  let l := sortCars (cars e) (roadCarsOf rIdx (cars e)) in
  let e1 := physics e in
  animate router e = transitionLoop router (length (cars e1)) e1 /\
  descending (cars e) l /\
  (forall k i car, l !! k = Some i -> cars e !! i = Some car ->
     cars e1 !! i = Some (followCar road (aheadAt l (cars e1) k) car)) /\
  (let e0 := @stackedShortRoad Q _ in
   let l0 := sortCars (cars e0) (roadCarsOf 0 (cars e0)) in
   l0 = [0; 1]%nat /\
   (progress <$> cars (physics e0) !! 1%nat) =
     Some (progress (followCar shortRoad (aheadAt l0 (cars (physics e0)) 1) enteredCar)) /\
   (progress (followCar shortRoad (aheadAt l0 (cars (physics e0)) 1) enteredCar)
      == - (24 # 100))%Q /\
   (progress (followCar shortRoad (aheadAt l0 (cars e0) 1) enteredCar)
      == - (25 # 100))%Q).
Proof.
  intros Hroad l e1. split; [reflexivity|].
  split; [apply sortCars_descending|].
  split; [apply (physics_road e rIdx road Hroad)|].
  repeat split.
Qed.

Lemma leader_seen_as_updated_witness :
  cars (physics (@stackedShortRoad Q _)) !! 1%nat =
    Some (followCar shortRoad (Some (followCar shortRoad None parkedCar)) enteredCar).
Proof.
  destruct (leader_seen_as_updated None stackedShortRoad 0 shortRoad eq_refl)
    as (_ & _ & Hstep & _).
  apply (Hstep 1%nat 1%nat enteredCar); reflexivity.
Defined.

(** ** The transition pass as a whole *)

Section PassOutcome.
Context {N : Type} `{Number N}.

Lemma passOutcome_snoc (router : option (Router N)) (rs : list (Road N)) :
  forall p0 pre outs c oc,
    passOutcome router rs p0 pre outs ->
    passOutcome router rs (p0 ++ pre) [c] oc ->
    passOutcome router rs p0 (pre ++ [c]) (outs ++ oc).
Proof.
  intros p0 pre outs c oc Hpre. revert c oc.
  induction Hpre as [p0 | p0 x cs outs Hx _ IH | p0 x cs outs Hx Hcall _ IH
                     | p0 x cs outs Hx Hcall _ IH]; intros c oc Hc.
  - rewrite app_nil_r in Hc. exact Hc.
  - simpl. apply po_moving; [exact Hx|]. apply IH.
    rewrite <- app_assoc. exact Hc.
  - simpl. apply po_removed; [exact Hx | exact Hcall |]. apply IH.
    rewrite <- app_assoc. exact Hc.
  - simpl. apply po_parked; [exact Hx | exact Hcall |]. apply IH.
    rewrite <- app_assoc. exact Hc.
Qed.

(** The outcome of a collection is the outcome of its parts, in order. *)
Lemma passOutcome_split (router : option (Router N)) (rs : list (Road N)) :
  forall pre p0 c rest outs,
    passOutcome router rs p0 (pre ++ c :: rest) outs ->
    exists o1 oc o2,
      outs = o1 ++ oc ++ o2 /\
      passOutcome router rs p0 pre o1 /\
      passOutcome router rs (p0 ++ pre) [c] oc /\
      passOutcome router rs (p0 ++ pre ++ [c]) rest o2.
Proof.
  induction pre as [|x pre IH]; intros p0 c rest outs Hout; simpl in Hout.
  - rewrite app_nil_r. simpl.
    inversion Hout
      as [ | ? ? ? outs' Hc Hrest | ? ? ? outs' Hc Hcall Hrest | ? ? ? outs' Hc Hcall Hrest ];
      subst.
    + exists [], [c], outs'. split; [reflexivity|]. split; [constructor|].
      split; [|exact Hrest]. apply po_moving; [exact Hc | constructor].
    + exists [], [], outs. split; [reflexivity|]. split; [constructor|].
      split; [|exact Hrest]. apply po_removed; [exact Hc | exact Hcall | constructor].
    + exists [], [parked c], outs'. split; [reflexivity|]. split; [constructor|].
      split; [|exact Hrest]. apply po_parked; [exact Hc | exact Hcall | constructor].
  - inversion Hout
      as [ | ? ? ? outs' Hx Hrest | ? ? ? outs' Hx Hcall Hrest | ? ? ? outs' Hx Hcall Hrest ];
      subst;
      destruct (IH _ _ _ _ Hrest) as (o1 & oc & o2 & -> & H1 & H2 & H3);
      rewrite <- !app_assoc in H2; rewrite <- !app_assoc in H3;
      simpl in H2, H3.
    + exists (x :: o1), oc, o2. split; [reflexivity|].
      split; [apply po_moving; assumption|]. split; assumption.
    + exists o1, oc, o2. split; [reflexivity|].
      split; [apply po_removed; assumption|]. split; assumption.
    + exists (parked x :: o1), oc, o2. split; [reflexivity|].
      split; [apply po_parked; assumption|]. split; assumption.
Qed.

(** Every vehicle of the outcome comes from a vehicle of the collection,
    unchanged if it was moving and parked if it was finished; the order is
    that of the collection. *)
Lemma passOutcome_origin (router : option (Router N)) (rs : list (Road N)) :
  forall p0 cs outs, passOutcome router rs p0 cs outs ->
    forall k x, outs !! k = Some x ->
      exists j c, cs !! j = Some c /\ (k <= j)%nat /\
        ((finished c = false /\ x = c) \/ (finished c = true /\ x = parked c)) /\
        forall k' x', (k < k')%nat -> outs !! k' = Some x' ->
          exists j' c', (j < j')%nat /\ cs !! j' = Some c' /\
            ((finished c' = false /\ x' = c') \/ (finished c' = true /\ x' = parked c')).
Proof.
  intros p0 cs outs Hout.
  induction Hout as [p0 | p0 c cs outs Hc _ IH | p0 c cs outs Hc Hcall _ IH
                     | p0 c cs outs Hc Hcall _ IH]; intros k x Hk.
  - discriminate.
  - destruct k as [|k]; simpl in Hk.
    + injection Hk as <-. exists 0%nat, c. split; [reflexivity|]. split; [lia|].
      split; [left; auto|]. intros [|k'] x' Hlt Hk'; [lia|]. simpl in Hk'.
      destruct (IH k' x' Hk') as (j' & c' & Hj' & _ & Hor & _).
      exists (S j'), c'. split; [lia|]. auto.
    + destruct (IH k x Hk) as (j & c0 & Hj & Hle & Hor & Hlater).
      exists (S j), c0. split; [exact Hj|]. split; [lia|]. split; [exact Hor|].
      intros [|k'] x' Hlt Hk'; [lia|]. simpl in Hk'.
      destruct (Hlater k' x' ltac:(lia) Hk') as (j' & c' & Hlt' & Hj' & Hor').
      exists (S j'), c'. split; [lia|]. auto.
  - destruct (IH k x Hk) as (j & c0 & Hj & Hle & Hor & Hlater).
    exists (S j), c0. split; [exact Hj|]. split; [lia|]. split; [exact Hor|].
    intros k' x' Hlt Hk'.
    destruct (Hlater k' x' Hlt Hk') as (j' & c' & Hlt' & Hj' & Hor').
    exists (S j'), c'. split; [lia|]. auto.
  - destruct k as [|k]; simpl in Hk.
    + injection Hk as <-. exists 0%nat, c. split; [reflexivity|]. split; [lia|].
      split; [right; auto|]. intros [|k'] x' Hlt Hk'; [lia|]. simpl in Hk'.
      destruct (IH k' x' Hk') as (j' & c' & Hj' & _ & Hor & _).
      exists (S j'), c'. split; [lia|]. auto.
    + destruct (IH k x Hk) as (j & c0 & Hj & Hle & Hor & Hlater).
      exists (S j), c0. split; [exact Hj|]. split; [lia|]. split; [exact Hor|].
      intros [|k'] x' Hlt Hk'; [lia|]. simpl in Hk'.
      destruct (Hlater k' x' ltac:(lia) Hk') as (j' & c' & Hlt' & Hj' & Hor').
      exists (S j'), c'. split; [lia|]. auto.
Qed.

Lemma passOutcome_roadIndex (router : option (Router N)) (rs : list (Road N))
    (p0 cs outs : list (Car N)) (x : Car N) :
  passOutcome router rs p0 cs outs -> In x outs ->
  exists c, In c cs /\ roadIndex x = roadIndex c /\ color x = color c.
Proof.
  intros Hout Hx. apply list_elem_of_In, list_elem_of_lookup in Hx as [k Hk].
  destruct (passOutcome_origin router rs p0 cs outs Hout k x Hk)
    as (j & c & Hj & _ & Hor & _).
  exists c. split; [apply list_elem_of_In, list_elem_of_lookup; eauto|].
  destruct Hor as [[_ ->] | [_ ->]]; auto.
Qed.

Lemma wellFormed_appended (e : Engine N) (extra : list (Car N)) :
  wellFormed e ->
  Forall (fun c => is_Some (roads e !! roadIndex c)) extra ->
  wellFormed (mkEngine (roads e) (cars e ++ extra)).
Proof.
  intros Hwf Hextra j c Hj. cbn [roads cars] in *.
  apply lookup_app_Some in Hj as [Hj | [_ Hj]]; [eapply Hwf, Hj|].
  apply (proj1 (List.Forall_forall _ extra) Hextra).
  apply list_elem_of_In, list_elem_of_lookup. eauto.
Qed.

Lemma wellFormed_cars (rs : list (Road N)) (cs cs' : list (Car N)) :
  wellFormed (mkEngine rs cs) ->
  (forall c, In c cs' -> exists c0, In c0 cs /\ roadIndex c = roadIndex c0) ->
  wellFormed (mkEngine rs cs').
Proof.
  intros Hwf Hsub j c Hj. cbn [roads cars] in *.
  destruct (Hsub c) as (c0 & Hc0 & ->);
    [apply list_elem_of_In, list_elem_of_lookup; eauto|].
  apply list_elem_of_In, list_elem_of_lookup in Hc0 as [k Hk].
  apply (Hwf k c0 Hk).
Qed.

(** The iterations of the transition loop over a segment [mid] of the
    collection [pre0 ++ mid ++ post]: they bring the loop to the last
    position of [pre0] with [mid] replaced by its outcome, [pre0] and
    [post] untouched, and what the router appended at the end. *)
Lemma transitionLoop_segment (router : option (Router N)) (P : Car N -> Prop) :
  (forall f, router = Some f -> appends P f) ->
  forall i rs pre0 mid post,
    length mid = i ->
    wellFormed (mkEngine rs ((pre0 ++ mid) ++ post)) ->
    exists outs extras,
      transitionLoop router (length pre0 + i) (mkEngine rs ((pre0 ++ mid) ++ post)) =
        transitionLoop router (length pre0)
          (mkEngine rs (pre0 ++ outs ++ post ++ extras)) /\
      wellFormed (mkEngine rs (pre0 ++ outs ++ post ++ extras)) /\
      passOutcome router rs pre0 mid outs /\
      Forall (fun c => is_Some (rs !! roadIndex c) /\ P c) extras /\
      (router = None -> extras = []).
Proof.
  intros Hrouter. induction i as [|i IH]; intros rs pre0 mid post Hlen Hwf.
  - destruct mid; [|discriminate]. exists [], [].
    rewrite Nat.add_0_r. simpl. rewrite !app_nil_r in *.
    split; [reflexivity|]. split; [exact Hwf|]. split; [constructor|].
    split; [constructor | reflexivity].
  - destruct mid as [|c mid _] using rev_ind; [discriminate|].
    rewrite length_app in Hlen. simpl in Hlen.
    assert (Hi : length mid = i) by lia. clear Hlen.
    set (pre := pre0 ++ mid).
    assert (Hpre : length pre = (length pre0 + i)%nat)
      by (unfold pre; rewrite length_app; lia).
    assert (Hshape : forall rest, (pre0 ++ mid ++ [c]) ++ rest = pre ++ c :: rest).
    { intros rest. unfold pre. rewrite <- !app_assoc. reflexivity. }
    rewrite Hshape in *.
    replace (length pre0 + S i)%nat with (S (length pre)) by lia.
    assert (Hc : (pre ++ c :: post) !! length pre = Some c)
      by (apply list_lookup_middle; reflexivity).
    destruct (Hwf _ c Hc) as [road Hroad]. cbn [roads] in Hroad.
    assert (Hdel : forall rest, delete (length pre) (pre ++ c :: rest) = pre ++ rest)
      by (intros rest; apply delete_middle).
    assert (Halt : forall (g : Car N -> Car N) rest,
              alter g (length pre) (pre ++ c :: rest) = pre ++ g c :: rest).
    { intros g rest.
      replace (length pre) with (length pre + 0)%nat at 1 by lia.
      rewrite alter_app_r. reflexivity. }
    assert (Hnext : forall post',
              wellFormed (mkEngine rs (pre ++ post')) ->
              exists outs extras,
                transitionLoop router (length pre) (mkEngine rs (pre ++ post')) =
                  transitionLoop router (length pre0)
                    (mkEngine rs (pre0 ++ outs ++ post' ++ extras)) /\
                wellFormed (mkEngine rs (pre0 ++ outs ++ post' ++ extras)) /\
                passOutcome router rs pre0 mid outs /\
                Forall (fun c => is_Some (rs !! roadIndex c) /\ P c) extras /\
                (router = None -> extras = [])).
    { intros post' Hwf'. rewrite Hpre. apply (IH rs pre0 mid post' Hi Hwf'). }
    cbn [transitionLoop]. unfold transitionAt. cbn [roads cars].
    rewrite Hc, Hroad. fold (finished c).
    destruct (finished c) eqn:Hfin.
    + destruct router as [f|].
      * destruct (Hrouter f eq_refl c (id road) (mkEngine rs (pre ++ c :: post)))
          as (extra & Hsnd & Hextra). cbn [roads cars] in *.
        destruct (f c (id road) (mkEngine rs (pre ++ c :: post))) as [moved s1] eqn:Hf.
        cbn [snd] in Hsnd. subst s1.
        assert (Hreg : Forall (fun c0 => is_Some (rs !! roadIndex c0)) extra).
        { eapply Forall_impl; [exact Hextra|]. intros c0 [Hc0 _]. exact Hc0. }
        pose proof (wellFormed_appended _ extra Hwf Hreg) as Hwf1. cbn [roads cars] in Hwf1.
        rewrite <- app_assoc in Hwf1. simpl in Hwf1.
        destruct moved.
        -- unfold splice. cbn [roads cars]. rewrite <- app_assoc. simpl.
           rewrite Hdel.
           destruct (Hnext (post ++ extra)) as (outs & extras & Hrun & Hwf' & Hout & Hex & _).
           { apply (wellFormed_cars rs _ _ Hwf1). intros c0 Hc0. exists c0.
             split; [|reflexivity]. rewrite in_app_iff in *. simpl. tauto. }
           assert (Heq : pre0 ++ outs ++ (post ++ extra) ++ extras =
                         pre0 ++ (outs ++ []) ++ post ++ extra ++ extras)
             by (simpl; rewrite <- !app_assoc; reflexivity).
           rewrite Heq in *.
           exists (outs ++ []), (extra ++ extras). rewrite Hrun.
           split; [reflexivity|]. split; [exact Hwf'|].
           split.
           ++ apply passOutcome_snoc; [exact Hout|].
              apply po_removed; [exact Hfin| |constructor].
              exists road, post. split; [exact Hroad|]. fold pre. rewrite Hf. reflexivity.
           ++ split; [|discriminate]. apply Forall_app. split; assumption.
        -- unfold park. cbn [roads cars]. rewrite <- app_assoc. simpl.
           rewrite Halt. fold (parked c).
           destruct (Hnext (parked c :: post ++ extra))
             as (outs & extras & Hrun & Hwf' & Hout & Hex & _).
           { apply (wellFormed_cars rs _ _ Hwf1). intros c0 Hc0.
             rewrite in_app_iff in Hc0. simpl in Hc0.
             destruct Hc0 as [Hc0 | [<- | Hc0]].
             - exists c0. split; [|reflexivity]. rewrite in_app_iff. tauto.
             - exists c. split; [|reflexivity]. rewrite in_app_iff. simpl. tauto.
             - exists c0. split; [|reflexivity]. rewrite in_app_iff. simpl. tauto. }
           assert (Heq : pre0 ++ outs ++ (parked c :: post ++ extra) ++ extras =
                         pre0 ++ (outs ++ [parked c]) ++ post ++ extra ++ extras)
             by (simpl; rewrite <- !app_assoc; reflexivity).
           rewrite Heq in *.
           exists (outs ++ [parked c]), (extra ++ extras). rewrite Hrun.
           split; [reflexivity|]. split; [exact Hwf'|].
           split.
           ++ apply passOutcome_snoc; [exact Hout|].
              apply po_parked; [exact Hfin| |constructor].
              exists road, post. split; [exact Hroad|]. fold pre. rewrite Hf. reflexivity.
           ++ split; [|discriminate]. apply Forall_app. split; assumption.
      * unfold splice. cbn [roads cars].
        rewrite Hdel.
        destruct (Hnext post) as (outs & extras & Hrun & Hwf' & Hout & Hex & Hnil).
        { apply (wellFormed_cars rs _ _ Hwf). intros c0 Hc0. exists c0.
          split; [|reflexivity]. rewrite in_app_iff in *. simpl. tauto. }
        assert (Heq : pre0 ++ outs ++ post ++ extras =
                      pre0 ++ (outs ++ []) ++ post ++ extras)
          by (rewrite app_nil_r; reflexivity).
        rewrite Heq in *.
        exists (outs ++ []), extras. rewrite Hrun. split; [reflexivity|].
        split; [exact Hwf'|]. split; [|split; assumption].
        apply passOutcome_snoc; [exact Hout|].
        apply po_removed; [exact Hfin|reflexivity|constructor].
    + destruct (Hnext (c :: post) Hwf) as (outs & extras & Hrun & Hwf' & Hout & Hex & Hnil).
      assert (Heq : pre0 ++ outs ++ (c :: post) ++ extras =
                    pre0 ++ (outs ++ [c]) ++ post ++ extras)
        by (simpl; rewrite <- !app_assoc; reflexivity).
      rewrite Heq in *.
      exists (outs ++ [c]), extras. rewrite Hrun.
      split; [reflexivity|]. split; [exact Hwf'|]. split; [|split; assumption].
      apply passOutcome_snoc; [exact Hout|].
      apply po_moving; [exact Hfin | constructor].
Qed.

(** The iterations [i-1, ..., 0] of the transition loop on a collection
    [pre ++ post] with [length pre = i]: [pre] is replaced by its outcome,
    [post] is kept, and what the router appended stands at the end. *)
Lemma transitionLoop_outcome (router : option (Router N)) (P : Car N -> Prop) :
  (forall f, router = Some f -> appends P f) ->
  forall i rs pre post,
    length pre = i ->
    wellFormed (mkEngine rs (pre ++ post)) ->
    exists outs extras,
      transitionLoop router i (mkEngine rs (pre ++ post)) =
        Some (mkEngine rs (outs ++ post ++ extras)) /\
      wellFormed (mkEngine rs (outs ++ post ++ extras)) /\
      passOutcome router rs [] pre outs /\
      Forall (fun c => is_Some (rs !! roadIndex c) /\ P c) extras /\
      (router = None -> extras = []).
Proof.
  intros Hrouter i rs pre post Hlen Hwf.
  destruct (transitionLoop_segment router P Hrouter i rs [] pre post Hlen Hwf)
    as (outs & extras & Hrun & Hwf' & Hout & Hex & Hnil).
  exists outs, extras. split; [exact Hrun|]. auto.
Qed.

(** A frame: the transition pass replaces the collection the physics pass
    has left by its outcome, followed by what the router appended. *)
Lemma animate_outcome (router : option (Router N)) (P : Car N -> Prop) (e : Engine N) :
  (forall f, router = Some f -> appends P f) ->
  wellFormed e ->
  exists outs extras,
    animate router e = Some (mkEngine (roads e) (outs ++ extras)) /\
    wellFormed (mkEngine (roads e) (outs ++ extras)) /\
    passOutcome router (roads e) [] (cars (physics e)) outs /\
    Forall (fun c => is_Some (roads e !! roadIndex c) /\ P c) extras /\
    (router = None -> extras = []).
Proof.
  intros Hrouter Hwf. unfold animate.
  pose proof (physics_keeps_wellFormed e Hwf) as Hwf1.
  destruct (transitionLoop_outcome router P Hrouter (length (cars (physics e)))
              (roads e) (cars (physics e)) [] eq_refl)
    as (outs & extras & Hrun & Hwf' & Hout & Hex & Hnil).
  - rewrite app_nil_r. exact Hwf1.
  - rewrite app_nil_r in Hrun. simpl in Hrun, Hwf'.
    exists outs, extras. split; [exact Hrun|]. auto.
Qed.

(** The frame seen from one finished vehicle, at position [i] of the
    collection the physics pass has left: the loop first deals with the
    vehicles behind it, which leaves [o2] and the vehicles [ex2] the router
    appended; the router is then called in the engine [s] that holds the
    vehicles before [c], [c] itself, [o2] and [ex2]; the vehicle is
    dropped or parked by the answer; the vehicles before it follow. *)
Lemma animate_at (router : option (Router N)) (P : Car N -> Prop) (e : Engine N)
    (i : nat) (c : Car N) (road : Road N) :
  (forall f, router = Some f -> appends P f) ->
  wellFormed e ->
  cars (physics e) !! i = Some c -> finished c = true ->
  roads e !! roadIndex c = Some road ->
  exists o1 o2 ex1 ex2,
    passOutcome router (roads e) [] (take i (cars (physics e))) o1 /\
    passOutcome router (roads e) (take (S i) (cars (physics e)))
      (drop (S i) (cars (physics e))) o2 /\
    Forall (fun c => is_Some (roads e !! roadIndex c) /\ P c) (ex1 ++ ex2) /\
    animate router e =
      transitionLoop router (S i)
        (mkEngine (roads e) (take i (cars (physics e)) ++ c :: o2 ++ ex2)) /\
    match router with
    | None =>
        animate router e = Some (mkEngine (roads e) (o1 ++ o2))
    | Some f =>
        let s := mkEngine (roads e) (take i (cars (physics e)) ++ c :: o2 ++ ex2) in
        exists extra,
          snd (f c (id road) s) = mkEngine (roads e) (cars s ++ extra) /\
          Forall (fun c => is_Some (roads e !! roadIndex c) /\ P c) extra /\
          animate router e =
            Some (mkEngine (roads e)
                    (o1 ++ (if fst (f c (id road) s) then [] else [parked c])
                        ++ o2 ++ ex2 ++ extra ++ ex1))
    end.
Proof.
  intros Hrouter Hwf Hc Hfin Hroad.
  pose proof (physics_keeps_wellFormed e Hwf) as Hwf1.
  unfold animate. set (cs := cars (physics e)) in *.
  assert (Hphys : physics e = mkEngine (roads e) cs) by reflexivity.
  rewrite Hphys in *. cbn [roads cars] in *. clear Hphys.
  pose proof (lookup_lt_Some _ _ _ Hc) as Hi.
  assert (Hlen0 : length (take (S i) cs) = S i) by (rewrite length_take; lia).
  assert (Hleni : length (take i cs) = i) by (rewrite length_take; lia).
  destruct (transitionLoop_segment router P Hrouter (length (drop (S i) cs)) (roads e)
              (take (S i) cs) (drop (S i) cs) [] eq_refl)
    as (o2 & ex2 & Hrun2 & Hwf2 & Hout2 & Hex2 & Hnil2).
  { rewrite app_nil_r, take_drop. exact Hwf1. }
  rewrite app_nil_r, take_drop in Hrun2.
  replace (length (take (S i) cs) + length (drop (S i) cs))%nat with (length cs)
    in Hrun2 by (rewrite length_take, length_drop; lia).
  rewrite Hlen0 in Hrun2. cbn [app] in Hrun2, Hwf2.
  rewrite (take_S_r cs i c Hc) in Hrun2, Hwf2.
  rewrite <- !app_assoc in Hrun2, Hwf2. cbn [app] in Hrun2, Hwf2.
  set (pre := take i cs) in *.
  assert (Hci : (pre ++ c :: o2 ++ ex2) !! i = Some c)
    by (apply list_lookup_middle; auto).
  assert (Hdel : forall rest, delete i (pre ++ c :: rest) = pre ++ rest)
    by (intros rest; rewrite <- Hleni; apply delete_middle).
  assert (Halt : forall (g : Car N -> Car N) rest,
            alter g i (pre ++ c :: rest) = pre ++ g c :: rest).
  { intros g rest. rewrite <- Hleni.
    replace (length pre) with (length pre + 0)%nat by lia.
    rewrite alter_app_r. reflexivity. }
  assert (Hstep : transitionLoop router (S i) (mkEngine (roads e) (pre ++ c :: o2 ++ ex2)) =
                  match router with
                  | None => transitionLoop router i (mkEngine (roads e) (pre ++ o2 ++ ex2))
                  | Some f =>
                      let r := f c (id road) (mkEngine (roads e) (pre ++ c :: o2 ++ ex2)) in
                      transitionLoop router i
                        (if fst r then splice i (snd r) else park i (snd r))
                  end).
  { cbn [transitionLoop]. unfold transitionAt. cbn [roads cars].
    rewrite Hci, Hroad. fold (finished c). rewrite Hfin.
    destruct router as [f|].
    - destruct (f c (id road) _) as [[|] s1]; reflexivity.
    - unfold splice. cbn [roads cars]. rewrite Hdel. reflexivity. }
  destruct router as [f|].
  - destruct (Hrouter f eq_refl c (id road) (mkEngine (roads e) (pre ++ c :: o2 ++ ex2)))
      as (extra & Hsnd & Hextra). cbn [roads cars] in Hsnd, Hextra.
    assert (Hreg : Forall (fun c0 => is_Some (roads e !! roadIndex c0)) extra).
    { eapply Forall_impl; [exact Hextra|]. intros c0 [Hc0 _]. exact Hc0. }
    pose proof (wellFormed_appended _ extra Hwf2 Hreg) as Hwf3.
    cbn [roads cars] in Hwf3.
    set (oc := if fst (f c (id road) (mkEngine (roads e) (pre ++ c :: o2 ++ ex2)))
               then [] else [parked c]).
    destruct (transitionLoop_outcome (Some f) P Hrouter i (roads e) pre
                (oc ++ o2 ++ ex2 ++ extra) Hleni)
      as (o1 & ex1 & Hrun1 & _ & Hout1 & Hex1 & _).
    { apply (wellFormed_cars (roads e) _ _ Hwf3). intros c0 Hc0.
      rewrite in_app_iff in Hc0. destruct Hc0 as [Hc0 | Hc0].
      - exists c0. split; [|reflexivity]. rewrite !in_app_iff. tauto.
      - rewrite in_app_iff in Hc0. destruct Hc0 as [Hc0 | Hc0].
        + exists c. split; [rewrite !in_app_iff; simpl; tauto|].
          unfold oc in Hc0. destruct (fst _); [destruct Hc0|].
          destruct Hc0 as [<- | []]. reflexivity.
        + exists c0. split; [|reflexivity].
          rewrite !in_app_iff in *. simpl. rewrite !in_app_iff. tauto. }
    exists o1, o2, ex1, ex2. split; [exact Hout1|]. split; [exact Hout2|].
    split; [apply Forall_app; split; assumption|].
    split; [exact Hrun2|].
    exists extra. split; [exact Hsnd|]. split; [exact Hextra|].
    rewrite Hrun2, Hstep. cbn zeta. rewrite Hsnd.
    fold oc. unfold splice, park. cbn [roads cars].
    replace (if fst (f c (id road) (mkEngine (roads e) (pre ++ c :: o2 ++ ex2)))
             then mkEngine (roads e) (delete i ((pre ++ c :: o2 ++ ex2) ++ extra))
             else mkEngine (roads e)
                    (alter (fun c0 => setSpeed (nlit 0) (setProgress (nlit 1) c0)) i
                       ((pre ++ c :: o2 ++ ex2) ++ extra)))
      with (mkEngine (roads e) (pre ++ oc ++ o2 ++ ex2 ++ extra)).
    + rewrite Hrun1. do 2 f_equal. rewrite <- !app_assoc. reflexivity.
    + unfold oc. rewrite <- !app_assoc. simpl.
      destruct (fst _); [rewrite Hdel | rewrite Halt]; rewrite <- ?app_assoc; reflexivity.
  - rewrite (Hnil2 eq_refl) in *. rewrite app_nil_r in *.
    destruct (transitionLoop_outcome None P Hrouter i (roads e) pre o2 Hleni)
      as (o1 & ex1 & Hrun1 & _ & Hout1 & Hex1 & Hnil1).
    { apply (wellFormed_cars (roads e) _ _ Hwf2). intros c0 Hc0. exists c0.
      split; [|reflexivity]. rewrite in_app_iff in *. simpl. tauto. }
    rewrite (Hnil1 eq_refl) in *. rewrite app_nil_r in *.
    exists o1, o2, [], []. split; [exact Hout1|]. split; [exact Hout2|].
    split; [constructor|]. rewrite app_nil_r.
    split; [exact Hrun2|]. rewrite Hrun2, Hstep. exact Hrun1.
Qed.

End PassOutcome.

Section PassCases.
Context {N : Type} `{Number N}.

Lemma passOutcome_single (router : option (Router N)) (rs : list (Road N))
    (pre : list (Car N)) (c : Car N) (oc : list (Car N)) :
  passOutcome router rs pre [c] oc ->
  (finished c = false /\ oc = [c]) \/
  (finished c = true /\ oc = [] /\ called router rs pre c true) \/
  (finished c = true /\ oc = [parked c] /\ called router rs pre c false).
Proof.
  intros Hout.
  inversion Hout
    as [ | ? ? ? outs' Hc Hrest | ? ? ? outs' Hc Hcall Hrest | ? ? ? outs' Hc Hcall Hrest ];
    subst; inversion Hrest; subst; auto.
Qed.

(** The fate of the vehicle at position [i] of the collection the physics
    pass has left, within the outcome of the whole collection. *)
Lemma passOutcome_at (router : option (Router N)) (rs : list (Road N))
    (cs outs : list (Car N)) (i : nat) (c : Car N) :
  passOutcome router rs [] cs outs -> cs !! i = Some c ->
  exists o1 oc o2,
    outs = o1 ++ oc ++ o2 /\
    passOutcome router rs [] (take i cs) o1 /\
    passOutcome router rs (take i cs) [c] oc /\
    passOutcome router rs (take (S i) cs) (drop (S i) cs) o2.
Proof.
  intros Hout Hc. rewrite <- (take_drop_middle cs i c Hc) in Hout.
  destruct (passOutcome_split router rs _ _ _ _ _ Hout) as (o1 & oc & o2 & Ho & H1 & H2 & H3).
  simpl in H2, H3. rewrite <- (take_S_r cs i c Hc) in H3.
  exists o1, oc, o2. auto.
Qed.



End PassCases.



(** ** The vehicle parked at the head of its road *)

Section ParkedFirst.
Local Open Scope Q_scope.

Lemma passOutcome_le1 (router : option (Router Q)) (rs : list (Road Q))
    (p0 cs outs : list (Car Q)) (x : Car Q) :
  passOutcome router rs p0 cs outs -> In x outs -> progress x <= 1.
Proof.
  intros Hout Hx. apply list_elem_of_In, list_elem_of_lookup in Hx as [k Hk].
  destruct (passOutcome_origin router rs p0 cs outs Hout k x Hk)
    as (j & c & _ & _ & Hor & _).
  destruct Hor as [[Hf ->] | [_ ->]].
  - unfold finished in Hf. qnum. apply Qgeb_lt in Hf. lra.
  - simpl. lra.
Qed.

(** In the physics pass a vehicle parked at the head of its road is moved
    to 1 + 0.01 * speedFactor, and the vehicles before it in the collection
    stay on their roads. *)
Lemma parkedFirst_physics (e : Engine Q) (rIdx : nat) (road : Road Q) (col : string)
    (before rest : list (Car Q)) :
  roads e !! rIdx = Some road ->
  cars e = before ++ mkCar rIdx 1 col 0 :: rest ->
  (forall c, In c before -> roadIndex c <> rIdx) ->
  (forall c, In c rest -> roadIndex c = rIdx -> progress c <= 1) ->
  cars (physics e) !! length before =
    Some (mkCar rIdx (1 + (1 # 100) * speedFactor road) col 0) /\
  forall x, In x (take (length before) (cars (physics e))) -> roadIndex x <> rIdx.
Proof.
  intros Hroad Hcars Hbefore Hrest.
  assert (Hi : cars e !! length before = Some (mkCar rIdx 1 col 0))
    by (rewrite Hcars; apply list_lookup_middle; reflexivity).
  split.
  - unfold physics. cbn [cars].
    change (physicsFrom 0 (roads e) (cars e) !! length before =
              Some (followCar road None (mkCar rIdx 1 col 0))).
    apply (physicsFrom_first road rIdx (length before) (mkCar rIdx 1 col 0));
      auto; [lia| |].
    + rewrite Nat.sub_0_r. exact Hroad.
    + intros j c Hj Hc. rewrite Hcars in Hj.
      apply lookup_app_Some in Hj as [Hj | [Hle Hj]].
      * exfalso. apply (Hbefore c); [|exact Hc].
        apply list_elem_of_In, list_elem_of_lookup. eauto.
      * split; [exact Hle|]. apply not_true_iff_false. intros Haft.
        apply after_lt in Haft as (ca & cb & Ha & Hb & Hlt).
        rewrite Hi in Ha. injection Ha as <-. simpl in Hlt.
        rewrite Hcars in Hb. rewrite lookup_app_r in Hb by exact Hle.
        destruct (j - length before)%nat as [|m]; simpl in Hb.
        -- injection Hb as <-. simpl in Hlt. lra.
        -- assert (Hin : In cb rest)
             by (apply list_elem_of_In, list_elem_of_lookup; eauto).
           assert (Hcb : cb = c).
           { simpl in Hj. congruence. }
           subst cb. specialize (Hrest c Hin Hc). lra.
  - intros x Hx. apply list_elem_of_In, list_elem_of_lookup in Hx as [j Hj].
    apply lookup_take_Some in Hj as [Hj Hlt].
    cbn [physics cars] in Hj.
    destruct (lookup_lt_is_Some_2 before j Hlt) as [c Hc].
    assert (Hc' : cars e !! j = Some c)
      by (rewrite Hcars; apply lookup_app_l_Some; exact Hc).
    destruct (physicsFrom_fields (roads e) 0 (cars e) j c Hc') as (c2 & Hc2 & Hr & _).
    rewrite Hj in Hc2. injection Hc2 as <-. rewrite Hr.
    apply Hbefore. apply list_elem_of_In, list_elem_of_lookup. eauto.
Qed.

(** A frame seen from the finished vehicle at position [i], under a router
    that enters vehicles at progress 0: the loop reaches the vehicle in an
    engine [s]; if the router refuses it there, the frame leaves the
    vehicle parked, behind the outcome of the vehicles that stood before
    it, and at the head of its road if none of these was on its road. *)
Lemma refused_at (f : Router Q) (e : Engine Q) (i : nat) (c : Car Q) (road : Road Q) :
  entersAtStart f -> wellFormed e ->
  cars (physics e) !! i = Some c -> finished c = true ->
  roads e !! roadIndex c = Some road ->
  exists tail e',
    let s := mkEngine (roads e) (take i (cars (physics e)) ++ c :: tail) in
    animate (Some f) e = transitionLoop (Some f) (S i) s /\
    animate (Some f) e = Some e' /\ roads e' = roads e /\ wellFormed e' /\
    (fst (f c (id road) s) = false ->
     exists o1 rest,
       cars e' = o1 ++ mkCar (roadIndex c) 1 (color c) 0 :: rest /\
       passOutcome (Some f) (roads e) [] (take i (cars (physics e))) o1 /\
       ((forall x, In x (take i (cars (physics e))) -> roadIndex x <> roadIndex c) ->
        parkedFirst e' (roadIndex c) (color c))).
Proof.
  intros Hf Hwf Hc Hfin Hroad.
  assert (Hrouter : forall f0, Some f = Some f0 -> appends (fun c => progress c = 0) f0)
    by (intros f0 [= <-]; exact Hf).
  destruct (animate_at (Some f) _ e i c road Hrouter Hwf Hc Hfin Hroad)
    as (o1 & o2 & ex1 & ex2 & H1 & H2 & Hex & Hreach & extra & Hsnd & Hextra & Hrun).
  destruct (animate_outcome (Some f) _ e Hrouter Hwf)
    as (outs & extras & Hrun' & Hwf' & _).
  rewrite Hrun in Hrun'. injection Hrun' as Hsame. rewrite <- Hsame in Hwf'.
  exists (o2 ++ ex2). eexists. cbn zeta.
  split; [exact Hreach|]. split; [exact Hrun|]. split; [reflexivity|].
  split; [exact Hwf'|].
  intros Hfalse. cbn zeta in Hfalse. rewrite Hfalse.
  exists o1, (o2 ++ ex2 ++ extra ++ ex1). cbn [cars].
  split; [reflexivity|]. split; [exact H1|].
  intros Hpre. exists o1, (o2 ++ ex2 ++ extra ++ ex1).
  split; [reflexivity|]. split.
  - intros x Hx.
    destruct (passOutcome_roadIndex _ _ _ _ _ x H1 Hx) as (c0 & Hc0 & -> & _).
    apply Hpre, Hc0.
  - intros x Hx _.
    apply Forall_app in Hex as [Hex1 Hex2].
    assert (Hzero : forall l, Forall (fun c0 => is_Some (roads e !! roadIndex c0) /\
                                       progress c0 = 0) l -> In x l -> progress x <= 1).
    { intros l Hl Hin. destruct (proj1 (List.Forall_forall _ l) Hl x Hin) as [_ Hp].
      rewrite Hp. lra. }
    rewrite !in_app_iff in Hx. destruct Hx as [Hx | [Hx | [Hx | Hx]]].
    + apply (passOutcome_le1 _ _ _ _ _ x H2 Hx).
    + apply (Hzero ex2); assumption.
    + apply (Hzero extra); assumption.
    + apply (Hzero ex1); assumption.
Qed.

(** One frame on a vehicle parked at the head of its road: the physics
    pass moves it to 1 + 0.01 * speedFactor, the loop reaches it in an
    engine [s], and if the router refuses it there the vehicle ends the
    frame parked at the head of its road again. *)
Lemma parkedFirst_frame (f : Router Q) (e : Engine Q) (rIdx : nat) (road : Road Q)
    (col : string) :
  entersAtStart f -> wellFormed e ->
  roads e !! rIdx = Some road -> 0 <= speedFactor road ->
  parkedFirst e rIdx col ->
  exists i tail e',
    let c1 := mkCar rIdx (1 + (1 # 100) * speedFactor road) col 0 in
    let s := mkEngine (roads e) (take i (cars (physics e)) ++ c1 :: tail) in
    animate (Some f) e = transitionLoop (Some f) (S i) s /\
    animate (Some f) e = Some e' /\ roads e' = roads e /\ wellFormed e' /\
    (fst (f c1 (id road) s) = false -> parkedFirst e' rIdx col).
Proof.
  intros Hf Hwf Hroad Hsf (before & rest & Hcars & Hbefore & Hrest).
  destruct (parkedFirst_physics e rIdx road col before rest Hroad Hcars Hbefore Hrest)
    as [Hi Hpre].
  set (c1 := mkCar rIdx (1 + (1 # 100) * speedFactor road) col 0) in *.
  assert (Hfin : finished c1 = true).
  { unfold finished. qnum. apply Qgeb_le. simpl.
    assert (0 <= (1 # 100) * speedFactor road) by (apply Qmult_le_0_compat; lra). lra. }
  destruct (refused_at f e (length before) c1 road Hf Hwf Hi Hfin Hroad)
    as (tail & e' & Hreach & Hrun & Hroads & Hwf' & Hrefused).
  exists (length before), tail, e'. cbn zeta in *.
  split; [exact Hreach|]. split; [exact Hrun|]. split; [exact Hroads|].
  split; [exact Hwf'|]. intros Hfalse.
  destruct (Hrefused Hfalse) as (o1 & rest' & _ & _ & Hpark).
  apply Hpark, Hpre.
Qed.

(** Any number of frames on a vehicle parked at the head of its road: it
    is parked there again after all of them, unless in one of them the
    router, called on the vehicle, has returned true. *)
Lemma parkedFirst_frames (f : Router Q) (rIdx : nat) (road : Road Q) (col : string)
    (n : nat) :
  entersAtStart f -> 0 <= speedFactor road ->
  forall e, wellFormed e -> roads e !! rIdx = Some road -> parkedFirst e rIdx col ->
    (exists e', run (Some f) (repeat OpFrame n) e = Some e' /\ roads e' = roads e /\
       wellFormed e' /\ parkedFirst e' rIdx col) \/
    (exists k ek i tail,
       let c1 := mkCar rIdx (1 + (1 # 100) * speedFactor road) col 0 in
       let s := mkEngine (roads e) (take i (cars (physics ek)) ++ c1 :: tail) in
       (k < n)%nat /\
       run (Some f) (repeat OpFrame k) e = Some ek /\ parkedFirst ek rIdx col /\
       animate (Some f) ek = transitionLoop (Some f) (S i) s /\
       fst (f c1 (id road) s) = true).
Proof.
  intros Hf Hsf. induction n as [|n IH]; intros e Hwf Hroad Hpark.
  - left. exists e. simpl. auto.
  - destruct (parkedFirst_frame f e rIdx road col Hf Hwf Hroad Hsf Hpark)
      as (i & tail & e1 & Hreach & Hrun1 & Hroads1 & Hwf1 & Hrefused).
    cbn zeta in *.
    destruct (fst (f (mkCar rIdx (1 + (1 # 100) * speedFactor road) col 0) (id road)
                     (mkEngine (roads e)
                        (take i (cars (physics e)) ++
                         mkCar rIdx (1 + (1 # 100) * speedFactor road) col 0 :: tail))))
      eqn:Hans.
    + right. exists 0%nat, e, i, tail. cbn zeta.
      split; [lia|]. split; [reflexivity|]. split; [exact Hpark|].
      split; [exact Hreach | exact Hans].
    + specialize (Hrefused eq_refl).
      destruct (IH e1 Hwf1) as
        [(e' & Hrun & Hroads & Hwf' & Hpark') | (k & ek & i' & tail' & Hk & Hrun & Hpk & Hreach' & Hans')];
        [rewrite Hroads1; exact Hroad | exact Hrefused | |].
      * left. exists e'. cbn [repeat run step]. rewrite Hrun1.
        split; [exact Hrun|]. split; [congruence|]. auto.
      * right. exists (S k), ek, i', tail'. cbn zeta in *.
        rewrite Hroads1 in Hreach', Hans'.
        split; [lia|]. cbn [repeat run step]. rewrite Hrun1.
        split; [exact Hrun|]. split; [exact Hpk|].
        split; [exact Hreach' | exact Hans'].
Qed.

End ParkedFirst.

(** C6, amended. The router changes the engine only by entering vehicles
    at progress 0 on registered roads, as [spawnCar] does.  When the
    transition pass of a frame reaches a vehicle with progress >= 1 and
    the router, called on it, returns false, the vehicle ends that frame
    with progress exactly 1 and speed 0, behind the outcome of the
    vehicles that stood before it; if none of these was on its road, it is
    then parked at the head of its road.  From a vehicle parked at the
    head of its road, on a road with speed factor >= 0, and for any number
    of further frames: after all of them the vehicle is parked at the head
    of its road again, with progress exactly 1 and speed 0, whatever the
    router has done with the other vehicles, unless in one of these frames
    the router, called on the vehicle, has returned true. *)
Theorem refused_vehicle_stays_parked (f : Router Q) (e : Engine Q) :
  wellFormed e -> entersAtStart f ->
  let cs := cars (physics e) in
  (forall i c road,
     cs !! i = Some c -> finished c = true ->
     roads e !! roadIndex c = Some road ->
     exists tail e',
       let s := mkEngine (roads e) (take i cs ++ c :: tail) in
       animate (Some f) e = transitionLoop (Some f) (S i) s /\
       animate (Some f) e = Some e' /\ roads e' = roads e /\ wellFormed e' /\
       (fst (f c (id road) s) = false ->
        exists o1 rest,
          cars e' = o1 ++ mkCar (roadIndex c) 1%Q (color c) 0%Q :: rest /\
          passOutcome (Some f) (roads e) [] (take i cs) o1 /\
          ((forall x, In x (take i cs) -> roadIndex x <> roadIndex c) ->
           parkedFirst e' (roadIndex c) (color c)))) /\
  (forall rIdx road col n,
     roads e !! rIdx = Some road -> (0 <= speedFactor road)%Q ->
     parkedFirst e rIdx col ->
     (exists e', run (Some f) (repeat OpFrame n) e = Some e' /\
        roads e' = roads e /\ wellFormed e' /\ parkedFirst e' rIdx col) \/
     (exists k ek i tail,
        let c1 := mkCar rIdx (1 + (1 # 100) * speedFactor road)%Q col 0%Q in
        let s := mkEngine (roads e) (take i (cars (physics ek)) ++ c1 :: tail) in
        (k < n)%nat /\
        run (Some f) (repeat OpFrame k) e = Some ek /\ parkedFirst ek rIdx col /\
        animate (Some f) ek = transitionLoop (Some f) (S i) s /\
        fst (f c1 (id road) s) = true)).
Proof.
  intros Hwf Hf cs. split.
  - intros i c road Hc Hfin Hroad.
    apply (refused_at f e i c road Hf Hwf Hc Hfin Hroad).
  - intros rIdx road col n Hroad Hsf Hpark.
    apply (parkedFirst_frames f rIdx road col n Hf Hsf e Hwf Hroad Hpark).
Qed.

Lemma refused_vehicle_stays_parked_witness :
  exists e',
    run (Some refuseAll) (repeat OpFrame 1000) (@parkedAlone Q _) = Some e' /\
    parkedFirst e' 0 "red".
Proof.
  assert (Hwf : wellFormed (@parkedAlone Q _)).
  { intros [|j] c Hj; simpl in Hj; [|discriminate].
    injection Hj as <-. eexists. reflexivity. }
  pose proof (@refuseAll_entersAtStart Q _) as Hf.
  assert (Hsf : (0 <= speedFactor (@shortRoad Q _))%Q) by (simpl; lra).
  assert (Hpark : parkedFirst (@parkedAlone Q _) 0 "red").
  { exists [], []. split; [reflexivity|]. split; intros c []. }
  destruct (refused_vehicle_stays_parked refuseAll parkedAlone Hwf Hf) as [_ Hframes].
  destruct (Hframes 0%nat shortRoad "red" 1000%nat eq_refl Hsf Hpark)
    as [(e' & Hrun & _ & _ & Hpark') | (k & ek & i & tail & _ & _ & _ & _ & Htrue)].
  - exists e'. split; [exact Hrun | exact Hpark'].
  - discriminate Htrue.
Defined.

(** ** Distances after a frame *)

Section Gap.
Local Open Scope Q_scope.

Variables (e : Engine Q) (rIdx : nat) (road : Road Q).
Hypothesis Hroad : roads e !! rIdx = Some road.
Hypothesis Hlen : 0 < len road.
Hypothesis Hsf : 0 <= speedFactor road.










End Gap.

Section EndOfFrame.
Local Open Scope Q_scope.


End EndOfFrame.





